(** * hips: HEALPix to HiPS tile extraction and HiPS tile fetching

    A shallow embedding of [hips/draw/healpix.py] and [hips/tiles/fetch.py]
    and the properties of the two programs.

    Python exceptions are modelled with an error monad, the file system
    with the trace of the writes, the network with a function from URLs to
    responses, and the order in which concurrent fetches finish with the list
    of the futures in completion order. *)

From Stdlib Require Import String Ascii DecimalString.
From Stdlib Require Import ZArith List Bool Lia Permutation.
Import ListNotations.
Open Scope Z_scope.

(** ** The Python runtime: exceptions and a few builtins *)

Module Py.

(** The [ValueError]s raised by [healpix_to_hips_tile] and by the libraries
    it calls, told apart by their message. *)
Inductive value_error : Type :=
| InvalidNdim          (* "Invalid hpx_data.ndim = ... Must be ndim = 1 for file_format='fits'." *)
| InvalidShapeRGB      (* "Invalid hpx_data.shape = ... Must be shape = (npix, 3) ..." *)
| InvalidShapeRGBA     (* "Invalid hpx_data.shape = ... Must be shape = (npix, 4) ..." *)
| InvalidFileFormat (file_format : string)   (* "Invalid file_format: ..." *)
| InvalidNpix          (* astropy_healpix: number of pixels is not 12 * nside ** 2 *)
| FloatNaNToInt        (* int(nan) *)
| BadFormatString.     (* str.format: a single brace, an unmatched brace *)

(** How a fetch can fail below the HTTP level. *)
Inductive net_error : Type :=
| ConnectionFailed
| TimedOut.

Inductive exn : Type :=
| ValueError (msg : value_error)
| IndexError
| KeyError
| OverflowError
| ZeroDivisionError
| HTTPError (code : Z)        (* urllib.error.HTTPError *)
| URLError (e : net_error)    (* urllib.error.URLError, socket.timeout *)
| ClientError (e : net_error).  (* aiohttp.ClientError, asyncio.TimeoutError *)

(** The outcome of a call: a value, or a raised exception. *)
Inductive result (A : Type) : Type :=
| Returns (a : A)
| Raises (e : exn).
Arguments Returns {A} a.
Arguments Raises {A} e.

Definition bind {A B} (r : result A) (k : A -> result B) : result B :=
  match r with
  | Returns a => k a
  | Raises e => Raises e
  end.

Notation "x <- c ;; k" := (bind c (fun x => k))
  (at level 61, c at next level, right associativity).

(** A comprehension or loop that calls [f] on each element in turn and
    stops at the first exception. *)
Fixpoint mapM {A B} (f : A -> result B) (l : list A) : result (list B) :=
  match l with
  | [] => Returns []
  | a :: l' => b <- f a ;; bs <- mapM f l' ;; Returns (b :: bs)
  end.

(** [enumerate(l)], counting from [start]. *)
Fixpoint enumerate_from {A} (start : nat) (l : list A) : list (nat * A) :=
  match l with
  | [] => []
  | a :: l' => (start, a) :: enumerate_from (S start) l'
  end.

Definition enumerate {A} (l : list A) : list (nat * A) := enumerate_from 0 l.

(** [range(n)] *)
Definition range (n : Z) : list Z := map Z.of_nat (seq 0 (Z.to_nat n)).

(** [seq[i]] for a Python sequence: negative indices count from the end,
    anything outside [-len, len) raises [IndexError]. *)
Definition getitem {A} (l : list A) (i : Z) : result A :=
  let n := Z.of_nat (length l) in
  let j := if i <? 0 then i + n else i in
  if (0 <=? j) && (j <? n) then
    match nth_error l (Z.to_nat j) with
    | Some a => Returns a
    | None => Raises IndexError
    end
  else Raises IndexError.

(** [int(np.log2(x))] for an integer [x]: [np.log2] of zero is [-inf] and of
    a negative number is [nan], and [int] raises on both.  For a positive
    [x] the logarithm is truncated; [Z.log2] is that value for every power
    of two (and for every [x] below [2^48], where the float is exact enough). *)
Definition int_log2 (x : Z) : result Z :=
  if x =? 0 then Raises OverflowError
  else if x <? 0 then Raises (ValueError FloatNaNToInt)
  else Returns (Z.log2 x).

End Py.
Import Py.

(** ** Tiles *)

(** [HipsTileMeta]: the class is declared outside the two modules; these are
    the fields its callers set.  [width] is [None] where the caller leaves
    the class default. *)
Record HipsTileMeta : Type := mkMeta {
  order : Z;
  ipix : Z;
  file_format : string;
  frame : string;
  width : option Z
}.

(** [HipsTile]: a meta and a payload (a pixel buffer for a tile made with
    [HipsTile.from_numpy], the raw bytes for a fetched tile). *)
Record HipsTile (D : Type) : Type := mkTile {
  meta : HipsTileMeta;
  data : D
}.
Arguments mkTile {D} meta data.
Arguments meta {D} h.
Arguments data {D} h.

(** ** numpy arrays, as far as the extractor looks at them *)

Module Np.

Section Arrays.

(** What sits at one index of axis 0: a scalar for a rank-1 array, the
    channel values of one pixel for an array of shape (npix, 3).  The
    extractor moves these around and never looks inside. *)
Variable item : Type.

(** An array is 0-dimensional, or has an axis 0 holding [items], each of
    shape [item_shape]: its shape is [length items :: item_shape]. *)
Inductive ndarray : Type :=
| Scalar (v : item)
| Array (item_shape : list nat) (items : list item).

Definition ndim (a : ndarray) : nat :=
  match a with
  | Scalar _ => 0%nat
  | Array item_shape _ => S (List.length item_shape)
  end.

Definition shape (a : ndarray) : list nat :=
  match a with
  | Scalar _ => []
  | Array item_shape items => List.length items :: item_shape
  end.

(** [a.shape[k]] *)
Definition shape_at (a : ndarray) (k : nat) : result Z :=
  match nth_error (shape a) k with
  | Some n => Returns (Z.of_nat n)
  | None => Raises IndexError
  end.

(** [a[ipix]] and [a[ipix, :]] for a 2-dimensional integer index array:
    the items at those indices of axis 0, in the layout of [ipix]. *)
Definition take (a : ndarray) (ipix : list (list Z)) : result (list (list item)) :=
  match a with
  | Scalar _ => Raises IndexError
  | Array _ items => mapM (mapM (getitem items)) ipix
  end.

(** Column [j] of a matrix held as a list of rows. *)
Definition column {A} (j : nat) (m : list (list A)) : list A :=
  flat_map (fun row => match nth_error row j with
                       | Some x => [x]
                       | None => []
                       end) m.

Definition ncols {A} (m : list (list A)) : nat :=
  match m with
  | [] => 0%nat
  | row :: _ => List.length row
  end.

(** [m] has [n] rows of [c] cells. *)
Definition rect {A} (n c : nat) (m : list (list A)) : Prop :=
  List.length m = n /\ Forall (fun row => List.length row = c) m.

(** [m[i][j]] where it exists. *)
Definition cell {A} (m : list (list A)) (i j : nat) : option A :=
  match nth_error m i with
  | Some row => nth_error row j
  | None => None
  end.

(** [np.transpose] on the first two axes *)
Definition transpose {A} (m : list (list A)) : list (list A) :=
  map (fun j => column j m) (seq 0 (ncols m)).

(** [np.flip(m, 1)] *)
Definition flip1 {A} (m : list (list A)) : list (list A) := map (@rev A) m.

(** [np.rot90(m)]: [transpose(flip(m, 1))], a quarter turn counterclockwise
    in the plane of the first two axes. *)
Definition rot90 {A} (m : list (list A)) : list (list A) := transpose (flip1 m).

(** [np.rot90(m, -1)]: [flip(transpose(m), 1)], the turn back. *)
Definition rot270 {A} (m : list (list A)) : list (list A) := flip1 (transpose m).

(** [ipix + offset] *)
Definition add_offset (ipix : list (list Z)) (offset : Z) : list (list Z) :=
  map (map (fun p => p + offset)) ipix.

End Arrays.

Arguments Scalar {item} v.
Arguments Array {item} item_shape items.
Arguments ndim {item} a.
Arguments shape {item} a.
Arguments shape_at {item} a k.
Arguments take {item} a ipix.

End Np.

(** ** astropy_healpix *)

Module Hp.

(** [np.round(np.sqrt(q))] as an integer: the integer nearest to the root
    of [q] (the root of an integer is never half way between two). *)
Definition round_sqrt (q : Z) : Z :=
  let s := Z.sqrt q in
  if q - s * s <=? s then s else s + 1.

Section Npix2nside.

(** [np.sqrt(x) ** 2 == x] in 64-bit floats, for an [x] that is not a
    square.  The root of such an [x] is rounded, and whether its square comes
    back to [x] is decided by the floating-point arithmetic of the platform:
    it does for 11 and for 14, it does not for 2 and for 3. *)
Variable sqrt_squares_back : Z -> bool.

(** [hp.npix2nside(npix)]: astropy_healpix converts its argument to a 64-bit
    integer, raises [ValueError] unless that is a multiple of 12 and the
    root of its twelfth squares back to it, and returns the root rounded to
    an integer.  The argument here is the integer the conversion leaves.
    For a square the root and its square are exact (below 2^53, and an array
    is shorter than that), so the test holds and the root is returned. *)
Definition npix2nside (npix : Z) : result Z :=
  if negb (npix mod 12 =? 0) then Raises (ValueError InvalidNpix)
  else
    let q := npix / 12 in
    let square_root := Z.sqrt q in
    if square_root * square_root =? q then Returns square_root
    else if sqrt_squares_back q then Returns (round_sqrt q)
    else Raises (ValueError InvalidNpix).

End Npix2nside.

(** [N] rounded to 53 significant bits, to nearest and to even on a tie. *)
Definition round53 (N : Z) : Z :=
  let b := Z.log2 N in
  if b <=? 52 then N
  else
    let unit := 2 ^ (b - 52) in
    let lo := N mod unit in
    let hi := N / unit in
    let half := unit / 2 in
    if (half <? lo) || ((lo =? half) && Z.odd hi) then (hi + 1) * unit
    else hi * unit.

(** The test [np.sqrt(x) ** 2 == x] in IEEE double precision with the root
    and the square rounded to nearest, for [0 < x < 2^53]: the root is
    [S / 2^k] with [S] of 53 bits, and its square is rounded to 53 bits. *)
Definition float64_sqrt_squares_back (x : Z) : bool :=
  let k := 52 - Z.log2 x / 2 in
  let X := x * 4 ^ k in
  let S0 := Z.sqrt X in
  let S := if S0 <? X - S0 * S0 then S0 + 1 else S0 in
  round53 (S * S) =? X.

End Hp.

(** ** hips/draw/healpix.py *)

Module Healpix.
Import Np Hp.

(** A path, as its components. *)
Definition path : Type := list string.

(** [base / rel] *)
Definition joinpath (base rel : path) : path := base ++ rel.

(** [p.parent] *)
Definition parent (p : path) : path := removelast p.

(** The descriptor [healpix_to_hips] writes. *)
Record HipsSurveyProperties : Type := mkProperties {
  hips_tile_format : string;
  hips_tile_width : Z;
  hips_frame : string
}.

Section Extractor.

Variable item : Type.

(** [hips.utils.healpix.hips_tile_healpix_ipix_array]: the HEALPix helper,
    which is not part of these two modules.  For a shift order it gives the
    2-dimensional array of the nested pixel offsets of the cells of a tile. *)
Variable hips_tile_healpix_ipix_array : Z -> list (list Z).

(** The floating-point test of [hp.npix2nside] on numbers that are not
    squares. *)
Variable sqrt_squares_back : Z -> bool.

(** [HipsTileMeta.tile_default_path], declared with the class. *)
Variable tile_default_path : HipsTileMeta -> path.

Definition buffer : Type := list (list item).

(** The format checks and the gather of lines 47-70. *)
Definition gather_pixels (hpx_data : ndarray item) (file_format : string)
    (ipix : list (list Z)) : result buffer :=
  if (file_format =? "fits")%string then
    if negb (ndim hpx_data =? 1)%nat then Raises (ValueError InvalidNdim)
    else take hpx_data ipix
  else if (file_format =? "jpg")%string then
    if negb (ndim hpx_data =? 2)%nat then Raises (ValueError InvalidShapeRGB)
    else
      channels <- shape_at hpx_data 1 ;;
      if negb (channels =? 3) then Raises (ValueError InvalidShapeRGB)
      else take hpx_data ipix
  else if (file_format =? "png")%string then
    if negb (ndim hpx_data =? 2)%nat then Raises (ValueError InvalidShapeRGBA)
    else
      channels <- shape_at hpx_data 1 ;;
      if negb (channels =? 4) then Raises (ValueError InvalidShapeRGBA)
      else take hpx_data ipix
  else Raises (ValueError (InvalidFileFormat file_format)).

(** [hpx_npix / tile_width ** 2], then the conversion to an integer that
    [npix2nside] starts with: the quotient without its fraction. *)
Definition tiles_per_sky (hpx_npix tile_width : Z) : result Z :=
  if tile_width ^ 2 =? 0 then Raises ZeroDivisionError
  else Returns (hpx_npix / tile_width ^ 2).

Definition healpix_to_hips_tile (hpx_data : ndarray item)
    (tile_width tile_idx : Z) (file_format frame : string)
    : result (HipsTile buffer) :=
  shift_order <- int_log2 tile_width ;;
  let hpx_ipix := hips_tile_healpix_ipix_array shift_order in
  let offset_ipix := tile_idx * tile_width ^ 2 in
  let ipix := add_offset hpx_ipix offset_ipix in
  data <- gather_pixels hpx_data file_format ipix ;;
  let data := rot90 data in
  hpx_npix <- shape_at hpx_data 0 ;;
  q <- tiles_per_sky hpx_npix tile_width ;;
  hpx_nside <- npix2nside sqrt_squares_back q ;;
  hpx_order <- int_log2 hpx_nside ;;
  let meta := mkMeta hpx_order tile_idx file_format frame (Some tile_width) in
  Returns (mkTile meta data).

(** What [healpix_to_hips] does to the file system, in order. *)
Inductive fs_event : Type :=
| Mkdir (p : path)                                   (* p.mkdir(exist_ok=True, parents=True) *)
| WriteProperties (p : path) (props : HipsSurveyProperties)
| WriteTile (p : path) (tile : HipsTile buffer).

(** The body of the loop over [range(n_tiles)]: the events of the tiles
    written, and how the loop ended. *)
Fixpoint write_tiles (hpx_data : ndarray item) (tile_width : Z) (base_path : path)
    (file_format frame : string) (tile_idxs : list Z) : list fs_event * result unit :=
  match tile_idxs with
  | [] => ([], Returns tt)
  | tile_idx :: rest =>
      match healpix_to_hips_tile hpx_data tile_width tile_idx file_format frame with
      | Raises e => ([], Raises e)
      | Returns tile =>
          let p := joinpath base_path (tile_default_path (meta tile)) in
          let '(events, r) :=
            write_tiles hpx_data tile_width base_path file_format frame rest in
          (Mkdir (parent p) :: WriteTile p tile :: events, r)
      end
  end.

(** [hpx_data.shape[0] // tile_width ** 2] *)
Definition n_tiles (hpx_data : ndarray item) (tile_width : Z) : result Z :=
  hpx_npix <- shape_at hpx_data 0 ;;
  if tile_width ^ 2 =? 0 then Raises ZeroDivisionError
  else Returns (hpx_npix / tile_width ^ 2).

Definition healpix_to_hips (hpx_data : ndarray item) (tile_width : Z)
    (base_path : path) (file_format frame : string) : list fs_event * result unit :=
  let props := mkProperties file_format tile_width frame in
  let start := [Mkdir base_path;
                WriteProperties (joinpath base_path ["properties"%string]) props] in
  match n_tiles hpx_data tile_width with
  | Raises e => (start, Raises e)
  | Returns n =>
      let '(events, r) :=
        write_tiles hpx_data tile_width base_path file_format frame (range n) in
      (start ++ events, r)
  end.

(** The spec's names for the extractor's failures: both are [ValueError]s
    in the code, told apart by the place that raises them. *)
Definition is_ShapeError (e : exn) : bool :=
  match e with
  | ValueError InvalidNdim | ValueError InvalidShapeRGB | ValueError InvalidShapeRGBA => true
  | _ => false
  end.

Definition is_UnsupportedFormatError (e : exn) : bool :=
  match e with
  | ValueError (InvalidFileFormat _) => true
  | _ => false
  end.

(** The input shapes the three formats accept. *)
Definition valid_shape (file_format : string) (hpx_data : ndarray item) : bool :=
  if (file_format =? "fits")%string then (ndim hpx_data =? 1)%nat
  else if (file_format =? "jpg")%string then
    (ndim hpx_data =? 2)%nat && (nth 1 (shape hpx_data) 0 =? 3)%nat
  else if (file_format =? "png")%string then
    (ndim hpx_data =? 2)%nat && (nth 1 (shape hpx_data) 0 =? 4)%nat
  else false.

Definition known_format (file_format : string) : bool :=
  (file_format =? "fits")%string || (file_format =? "jpg")%string
  || (file_format =? "png")%string.

(** The inverse of the gather: write the cells of a buffer back to the
    pixels they came from.  [dst[ipix] = buf] in numpy. *)
Fixpoint update {A} (l : list A) (n : nat) (x : A) : list A :=
  match l, n with
  | [], _ => []
  | _ :: l', O => x :: l'
  | a :: l', S n' => a :: update l' n' x
  end.

Definition scatter (dst : list item) (ipix : list (list Z)) (buf : buffer) : list item :=
  fold_left (fun acc pv => update acc (Z.to_nat (fst pv)) (snd pv))
            (combine (concat ipix) (concat buf)) dst.

(** The items along axis 0. *)
Definition pixels (a : ndarray item) : list item :=
  match a with
  | Scalar _ => []
  | Array _ items => items
  end.

(** The cell at index [q] of the input holds [x]. *)
Definition gathered (items : list item) (q : Z) (x : item) : Prop :=
  nth_error items (Z.to_nat q) = Some x.

(** The absolute indices the extractor gathers for a tile. *)
Definition tile_ipix (tile_width tile_idx : Z) : list (list Z) :=
  add_offset (hips_tile_healpix_ipix_array (Z.log2 tile_width))
             (tile_idx * tile_width ^ 2).

(** The order of the source map in the words of the spec:
    [nside = sqrt(npix / tile_width^2)], [order = log2(nside)], with the
    root and the logarithm rounded down. *)
Definition spec_order (npix tile_width : Z) : Z :=
  Z.log2 (Z.sqrt (npix / tile_width ^ 2)).

(** What the helper has to give for a tile of width [w]: [w] rows of [w]
    offsets, which are the numbers [0 .. w^2 - 1] in some order. *)
Definition nested_permutation (w : Z) (hpx_ipix : list (list Z)) : Prop :=
  List.length hpx_ipix = Z.to_nat w /\
  Forall (fun row => List.length row = Z.to_nat w) hpx_ipix /\
  Permutation (concat hpx_ipix) (range (w ^ 2)).

End Extractor.

End Healpix.

(** ** str.format with one positional argument *)

Module Str.

Definition is_open (c : ascii) : bool := Ascii.eqb c "{"%char.
Definition is_close (c : ascii) : bool := Ascii.eqb c "}"%char.

(** The number of brace characters of a string. *)
Fixpoint braces (s : string) : nat :=
  match s with
  | EmptyString => 0%nat
  | String c rest => ((if is_open c || is_close c then 1 else 0) + braces rest)%nat
  end.

(** Where the scan of a format string stands. *)
Inductive scan_state : Type :=
| Text                                   (* in literal text *)
| AfterOpen                              (* one opening brace read *)
| AfterClose                             (* one closing brace read *)
| InField (depth : nat) (field : string). (* inside a replacement field *)

(** The braces a scan in state [st] has read and not yet used. *)
Definition pending (st : scan_state) : nat :=
  match st with
  | AfterOpen | AfterClose => 1%nat
  | Text | InField _ _ => 0%nat
  end.

Definition snoc (s : string) (c : ascii) : string := (s ++ String c EmptyString)%string.

Section Format.

(** How one replacement field is rendered: the number of fields before it
    (for automatic numbering), the text between its braces and the argument.
    This is the format-specification language of Python, which the fetcher
    does not depend on. *)
Variable render_field : nat -> string -> Z -> result string.

(** [s.format(arg)]: literal text is copied, a doubled brace gives one
    brace, a single closing brace or an unclosed field raises [ValueError],
    and a replacement field, which runs to its matching closing brace, is
    rendered. *)
Fixpoint format_from (s : string) (st : scan_state) (nfields : nat) (arg : Z)
    : result string :=
  match s with
  | EmptyString =>
      match st with
      | Text => Returns EmptyString
      | _ => Raises (ValueError BadFormatString)
      end
  | String c rest =>
      match st with
      | Text =>
          if is_open c then format_from rest AfterOpen nfields arg
          else if is_close c then format_from rest AfterClose nfields arg
          else out <- format_from rest Text nfields arg ;; Returns (String c out)
      | AfterOpen =>
          if is_open c then
            out <- format_from rest Text nfields arg ;; Returns (String c out)
          else if is_close c then
            r <- render_field nfields EmptyString arg ;;
            out <- format_from rest Text (S nfields) arg ;;
            Returns (r ++ out)%string
          else format_from rest (InField 0 (String c EmptyString)) nfields arg
      | AfterClose =>
          if is_close c then
            out <- format_from rest Text nfields arg ;; Returns (String c out)
          else Raises (ValueError BadFormatString)
      | InField depth field =>
          if is_close c then
            match depth with
            | O =>
                r <- render_field nfields field arg ;;
                out <- format_from rest Text (S nfields) arg ;;
                Returns (r ++ out)%string
            | S d => format_from rest (InField d (snoc field c)) nfields arg
            end
          else if is_open c then
            format_from rest (InField (S depth) (snoc field c)) nfields arg
          else format_from rest (InField depth (snoc field c)) nfields arg
      end
  end.

Definition format (s : string) (arg : Z) : result string :=
  format_from s Text 0 arg.

End Format.

(** [str(i)] for an integer. *)
Definition decimal (i : Z) : string := NilZero.string_of_int (Z.to_int i).

(** A renderer for the fields [{}] and [{0}], which give the argument in
    decimal; a second automatic field, another index or a name is an error. *)
Definition render_index (nfields : nat) (field : string) (arg : Z) : result string :=
  if (field =? "")%string then
    match nfields with
    | O => Returns (decimal arg)
    | S _ => Raises IndexError
    end
  else if (field =? "0")%string then Returns (decimal arg)
  else Raises KeyError.

End Str.

(** ** hips/tiles/fetch.py *)

Module Fetch.
Import Str.

Definition bytes : Type := list Byte.byte.

(** What the server does with a request for a URL. *)
Inductive response : Type :=
| Success (body : bytes)                 (* a response with a success status *)
| ErrorStatus (code : Z) (body : bytes)  (* a response with status 4xx or 5xx *)
| NetworkFailure (e : net_error).        (* no response: connection error, timeout *)

Definition server : Type := string -> response.

(** The survey collaborator, as the fetcher uses it. *)
Record HipsSurveyProperties : Type := mkSurvey {
  astropy_frame : string;
  tile_url : HipsTileMeta -> string
}.

(** The fetcher as its constructor leaves it.  [thread_count] is the number
    of worker threads, a positive number: it bounds how many fetches run at
    once, and the order in which they finish is given apart. *)
Record HipsTileFetcher : Type := mkFetcher {
  tile_indices : list Z;
  hips_order : Z;
  hips_survey : HipsSurveyProperties;
  tile_format : string;
  progress_bar : bool;
  thread_count : nat
}.

(** [urllib.request.urlopen(url, timeout=timeout)] then [conn.read()]:
    [urlopen] raises [HTTPError] on a response whose status is not a
    success, and [URLError] or a timeout when there is no response. *)
Definition fetch_tile_threaded (srv : server) (url : string) : result bytes :=
  match srv url with
  | Success body => Returns body
  | ErrorStatus code _ => Raises (HTTPError code)
  | NetworkFailure e => Raises (URLError e)
  end.

(** [session.get(url)] then [response.read()]: the session is made with
    the defaults, so the status of the response is not looked at and the
    body is read whatever it is. *)
Definition fetch_tile_threaded_aiohttp (srv : server) (url : string) : result bytes :=
  match srv url with
  | Success body => Returns body
  | ErrorStatus _ body => Returns body
  | NetworkFailure e => Raises (ClientError e)
  end.

(** The loop that both strategies start with. *)
Definition tile_metas (self : HipsTileFetcher) : list HipsTileMeta :=
  map (fun healpix_pixel_index =>
         mkMeta (hips_order self) healpix_pixel_index (tile_format self)
                (astropy_frame (hips_survey self)) None)
      (tile_indices self).

Definition tile_urls (self : HipsTileFetcher) : list string :=
  map (tile_url (hips_survey self)) (tile_metas self).

(** [tqdm(it, ...)] yields what [it] yields; the bar it draws is not
    modelled. *)
Definition tqdm {A} (it : list A) : list A := it.

(** [as_completed(fs)]: the futures (or tasks) of [fs], each once, in the
    order in which they finish.  [completion] is that order, as positions
    in [fs]; it is a permutation of [0 .. len(fs) - 1]. *)
Definition as_completed {A} (fs : list A) (completion : list nat) : list A :=
  flat_map (fun k => match nth_error fs k with
                     | Some f => [f]
                     | None => []
                     end) completion.

(** [future.result()], [await f]: a future holds the outcome of its call. *)
Definition future_result {A} (future : result A) : result A := future.

(** The last loop of both strategies: [HipsTile(tile_metas[idx], raw_data)]
    over [enumerate(raw_responses)]. *)
Definition make_tiles (metas : list HipsTileMeta) (raw_responses : list bytes)
    : result (list (HipsTile bytes)) :=
  mapM (fun ir => meta <- getitem metas (Z.of_nat (fst ir)) ;;
                  Returns (mkTile meta (snd ir)))
       (enumerate raw_responses).

(** The property [tiles].  The futures are the values of
    [executor.submit], one per URL in the order of [tile_urls]; the dict
    [future_to_url] is read in the loop and its value is not used. *)
Definition tiles (self : HipsTileFetcher) (srv : server) (completion : list nat)
    : result (list (HipsTile bytes)) :=
  let futures := map (fetch_tile_threaded srv) (tile_urls self) in
  let requests :=
    if progress_bar self then tqdm (as_completed futures completion)
    else as_completed futures completion in
  raw_responses <- mapM future_result requests ;;
  make_tiles (tile_metas self) raw_responses.

(** [await asyncio.gather] of the tasks: the first exception raised, in the
    order in which the tasks finish, if there is one; else the results in
    the order of [tasks]. *)
Definition gather {A} (tasks : list (result A)) (completion : list nat)
    : result (list A) :=
  _ <- mapM future_result (as_completed tasks completion) ;;
  mapM future_result tasks.

Section Cooperative.

Variable render_field : nat -> string -> Z -> result string.

(** The URLs the tasks are made for: [url.format(idx)] over
    [enumerate(tile_urls)]. *)
Definition task_urls (self : HipsTileFetcher) : result (list string) :=
  mapM (fun iu => format render_field (snd iu) (Z.of_nat (fst iu)))
       (enumerate (tile_urls self)).

(** The coroutine [fetch_tiles_aiohttp]. *)
Definition fetch_tiles_aiohttp (self : HipsTileFetcher) (srv : server)
    (completion : list nat) : result (list (HipsTile bytes)) :=
  urls <- task_urls self ;;
  let tasks := map (fetch_tile_threaded_aiohttp srv) urls in
  raw_responses <-
    (if progress_bar self then
       mapM future_result (tqdm (as_completed tasks completion))
     else gather tasks completion) ;;
  make_tiles (tile_metas self) raw_responses.

(** The property [tiles_aiohttp]: the event loop runs the coroutine to its
    end. *)
Definition tiles_aiohttp (self : HipsTileFetcher) (srv : server)
    (completion : list nat) : result (list (HipsTile bytes)) :=
  fetch_tiles_aiohttp self srv completion.

End Cooperative.

(** The URLs the thread-pool strategy opens: the arguments of
    [executor.submit]. *)
Definition submitted_urls (self : HipsTileFetcher) : list string := tile_urls self.

(** The tile list the spec asks for: position [k] holds the meta of
    [tile_indices[k]] and the payload fetched from that meta's URL. *)
Definition tiles_in_submission_order (fetch : server -> string -> result bytes)
    (self : HipsTileFetcher) (srv : server) : result (list (HipsTile bytes)) :=
  mapM (fun meta => raw <- fetch srv (tile_url (hips_survey self) meta) ;;
                    Returns (mkTile meta raw))
       (tile_metas self).

(** The tiles of a list of metas and a list of payloads, paired by
    position. *)
Definition pair_tiles (metas : list HipsTileMeta) (raws : list bytes)
    : list (HipsTile bytes) :=
  map (fun mr => mkTile (fst mr) (snd mr)) (combine metas raws).

(** Two tile lists hold the same tiles when compared as sets. *)
Definition same_tile_set (a b : list (HipsTile bytes)) : Prop :=
  forall t, In t a <-> In t b.

End Fetch.

(** ** Inputs for the examples *)

Module Examples.
Import Np Healpix Str Fetch.

(** A helper for tiles of width 1 and 2: the offsets of a tile in rows. *)
Definition ipix_array (shift_order : Z) : list (list Z) :=
  if shift_order =? 0 then [[0]]
  else if shift_order =? 1 then [[0; 2]; [1; 3]]
  else [].

(** The canonical path of a tile of the HiPS standard, Norder/Dir/Npix. *)
Definition default_path (m : HipsTileMeta) : path :=
  [("Norder" ++ decimal (order m))%string;
   ("Dir" ++ decimal (ipix m / 10000 * 10000))%string;
   ("Npix" ++ decimal (ipix m) ++ "." ++ file_format m)%string].

(** A sky of 12 pixels with the values 100 .. 111. *)
Definition sky12 : ndarray Z := Array [] (map (fun k => 100 + Z.of_nat k) (seq 0 12)).

(** A sky of 48 pixels with the values 100 .. 147, and the same with two
    more pixels at the end. *)
Definition sky48 : ndarray Z := Array [] (map (fun k => 100 + Z.of_nat k) (seq 0 48)).

(** A survey whose tiles are at http://h/Npix<ipix>.<format>. *)
Definition survey : Fetch.HipsSurveyProperties :=
  mkSurvey "icrs"
    (fun m => ("http://h/Npix" ++ decimal (ipix m) ++ "." ++ file_format m)%string).

(** A survey whose URL builder leaves a replacement field in the URL. *)
Definition survey_braces : Fetch.HipsSurveyProperties :=
  mkSurvey "icrs" (fun m => "http://h/{}/tile"%string).

Definition fetcher (indices : list Z) (bar : bool) : HipsTileFetcher :=
  mkFetcher indices 3 survey "fits" bar 2.

Definition payload_A : bytes := [Byte.x41].
Definition payload_B : bytes := [Byte.x42].
Definition payload_404 : bytes := [Byte.x34; Byte.x30; Byte.x34].

(** A server with payload A for tile 7 and payload B for every other URL. *)
Definition server_AB : server :=
  fun url => if (url =? "http://h/Npix7.fits")%string then Success payload_A
             else Success payload_B.

(** A server that has tile 7 and answers 404 for every other URL. *)
Definition server_404 : server :=
  fun url => if (url =? "http://h/Npix7.fits")%string then Success payload_A
             else ErrorStatus 404 payload_404.

(** A server that has tile 7 and does not answer for any other URL. *)
Definition server_down : server :=
  fun url => if (url =? "http://h/Npix7.fits")%string then Success payload_A
             else NetworkFailure TimedOut.

End Examples.

Module MoreExamples.
Import Np Healpix Str Fetch.

(** The pixels of the sky of 48 pixels, and a sky that has the same last
    four pixels and zeros before them. *)
Definition pixels48 : list Z := map (fun k => 100 + Z.of_nat k) (seq 0 48).
Definition pixels48_tail : list Z := repeat 0 44 ++ [144; 145; 146; 147].

(** Tile 11 of the sky of 48 pixels in tiles of width 2. *)
Definition tile11 : HipsTile (buffer Z) :=
  mkTile (mkMeta 0 11 "fits" "icrs" (Some 2)) [[146; 147]; [144; 145]].

(** A sky of 528 pixels with the values 100 .. 627, and its tile 0 in
    tiles of width 2. *)
Definition sky528 : ndarray Z := Array [] (map (fun k => 100 + Z.of_nat k) (seq 0 528)).
Definition tile0_of_528 : HipsTile (buffer Z) :=
  mkTile (mkMeta 1 0 "fits" "icrs" (Some 2)) [[102; 103]; [100; 101]].

(** A survey whose URL has one opening brace. *)
Definition survey_one_brace : Fetch.HipsSurveyProperties :=
  mkSurvey "icrs" (fun m => "http://h/{tile"%string).

(** A server with the payload A for every URL. *)
Definition server_A : server := fun url => Success Examples.payload_A.

End MoreExamples.

(** * Properties *)

(** ** The error monad *)

Section MapM.

Context {A B : Type}.
Variable f : A -> result B.

Lemma mapM_returns_Forall2 (l : list A) (bs : list B) :
  mapM f l = Returns bs <-> Forall2 (fun a b => f a = Returns b) l bs.
Proof.
  revert bs. induction l as [|a l IH]; intros bs; simpl.
  - split.
    + intros E. injection E as <-. constructor.
    + intros H. inversion H. reflexivity.
  - destruct (f a) as [b|e] eqn:Ea; simpl.
    + destruct (mapM f l) as [bs'|e] eqn:El; simpl.
      * split.
        -- intros E. injection E as <-. constructor; [assumption | now apply IH].
        -- intros H. inversion H as [|? b0 ? bs0 E0 Hr]; subst.
           rewrite Ea in E0. injection E0 as <-.
           apply IH in Hr. now injection Hr as <-.
      * split; [discriminate|].
        intros H. inversion H as [|? b0 ? bs0 E0 Hr]; subst.
        apply IH in Hr. discriminate.
    + split; [discriminate|].
      intros H. inversion H as [|? b0 ? bs0 E0 Hr]; subst. congruence.
Qed.

Lemma mapM_total (l : list A) :
  Forall (fun a => exists b, f a = Returns b) l -> exists bs, mapM f l = Returns bs.
Proof.
  induction 1 as [|a l [b Eb] _ [bs Ebs]]; simpl.
  - now exists [].
  - rewrite Eb, Ebs. simpl. now exists (b :: bs).
Qed.

Lemma mapM_raises (l : list A) (e : exn) :
  mapM f l = Raises e -> exists a, In a l /\ f a = Raises e.
Proof.
  induction l as [|a l IH]; simpl; [discriminate|].
  destruct (f a) as [b|e'] eqn:Ea; simpl.
  - destruct (mapM f l) as [bs|e''] eqn:El; simpl; [discriminate|].
    intros E. injection E as ->. destruct (IH eq_refl) as [a' [Hin Ha']].
    exists a'. auto.
  - intros E. injection E as ->. exists a. auto.
Qed.

Lemma mapM_one_raises (l : list A) (a : A) (e : exn) :
  In a l -> f a = Raises e ->
  exists e' a', mapM f l = Raises e' /\ In a' l /\ f a' = Raises e'.
Proof.
  intros Hin Ha.
  destruct (mapM f l) as [bs|e'] eqn:El.
  - apply mapM_returns_Forall2 in El.
    exfalso. revert Hin. induction El as [|a0 b0 l0 bs0 E0 _ IH]; simpl; [tauto|].
    intros [->|Hin]; [congruence | auto].
  - destruct (mapM_raises l e' El) as [a' [Hin' Ha']].
    exists e', a'. auto.
Qed.

Lemma mapM_length (l : list A) (bs : list B) :
  mapM f l = Returns bs -> List.length bs = List.length l.
Proof.
  intros E. apply mapM_returns_Forall2 in E.
  symmetry. eapply Forall2_length; eassumption.
Qed.

End MapM.

Lemma mapM_ext {A B} (f g : A -> result B) (l : list A) :
  (forall a, In a l -> f a = g a) -> mapM f l = mapM g l.
Proof.
  induction l as [|a l IH]; simpl; intros H; [reflexivity|].
  rewrite (H a) by auto. rewrite IH by auto. reflexivity.
Qed.

Lemma mapM_pure {A B} (g : A -> B) (l : list A) :
  mapM (fun a => Returns (g a)) l = Returns (map g l).
Proof.
  induction l as [|a l IH]; simpl; [reflexivity|]. now rewrite IH.
Qed.

Lemma mapM_map {A B C} (f : B -> result C) (g : A -> B) (l : list A) :
  mapM f (map g l) = mapM (fun a => f (g a)) l.
Proof.
  induction l as [|a l IH]; simpl; [reflexivity|]. now rewrite IH.
Qed.

(** ** Indexing *)

Lemma getitem_in_range {A} (l : list A) (i : Z) :
  0 <= i < Z.of_nat (List.length l) ->
  exists a, getitem l i = Returns a /\ nth_error l (Z.to_nat i) = Some a.
Proof.
  intros Hi. unfold getitem.
  destruct (i <? 0) eqn:Hneg; [apply Z.ltb_lt in Hneg; lia|].
  replace (0 <=? i) with true by (symmetry; apply Z.leb_le; lia).
  replace (i <? Z.of_nat (List.length l)) with true by (symmetry; apply Z.ltb_lt; lia).
  simpl.
  destruct (nth_error l (Z.to_nat i)) as [a|] eqn:E.
  - now exists a.
  - apply nth_error_None in E. lia.
Qed.

Lemma getitem_nat {A} (l : list A) (k : nat) (a : A) :
  nth_error l k = Some a -> getitem l (Z.of_nat k) = Returns a.
Proof.
  intros E.
  assert (k < List.length l)%nat by (apply nth_error_Some; congruence).
  destruct (getitem_in_range l (Z.of_nat k)) as [a' [Eg En]]; [lia|].
  rewrite Nat2Z.id in En. congruence.
Qed.

Lemma in_range_iff (n v : Z) : In v (range n) <-> 0 <= v < n.
Proof.
  unfold range. rewrite in_map_iff. split.
  - intros [k [<- Hk]]. apply in_seq in Hk. lia.
  - intros Hv. exists (Z.to_nat v). split; [lia|]. apply in_seq. lia.
Qed.


(** ** The extractor and the converter *)

Module HealpixSpec.
Import Np Hp Healpix.

#[local] Arguments Z.pow : simpl never.
#[local] Arguments Z.div : simpl never.
#[local] Arguments Z.modulo : simpl never.

Lemma int_log2_positive (x : Z) : 0 < x -> int_log2 x = Returns (Z.log2 x).
Proof.
  intros Hx. unfold int_log2.
  destruct (x =? 0) eqn:E0; [apply Z.eqb_eq in E0; lia|].
  destruct (x <? 0) eqn:E1; [apply Z.ltb_lt in E1; lia|].
  reflexivity.
Qed.

Lemma string_eqb_neq (a b : string) : a <> b -> (a =? b)%string = false.
Proof. intros H. now apply String.eqb_neq. Qed.

Section Extractor.

Variable item : Type.
Variable hips_tile_healpix_ipix_array : Z -> list (list Z).
Variable sqrt_squares_back : Z -> bool.

Local Abbreviation extract := (healpix_to_hips_tile item hips_tile_healpix_ipix_array sqrt_squares_back).

(** The extractor fails where the format checks fail. *)
Lemma extract_gather_raises hpx_data w idx ff frame e :
  0 < w ->
  (forall ipix, gather_pixels item hpx_data ff ipix = Raises e) ->
  extract hpx_data w idx ff frame = Raises e.
Proof.
  intros Hw Hg. unfold healpix_to_hips_tile.
  rewrite (int_log2_positive w Hw). simpl. now rewrite Hg.
Qed.

(** C5: for a positive tile width, the extractor raises the shape error
    when the format is fits and the input is not rank-1, when it is jpg and
    the input is not rank-2 with 3 channels, when it is png and the input is
    not rank-2 with 4 channels, and it raises the unsupported-format error
    when the format is none of the three. *)
Theorem extractor_rejects_bad_input hpx_data w idx ff frame :
  0 < w ->
  (ff = "fits"%string -> ndim hpx_data <> 1%nat ->
     exists e, extract hpx_data w idx ff frame = Raises e /\ is_ShapeError e = true) /\
  (ff = "jpg"%string ->
     ~ (ndim hpx_data = 2%nat /\ nth_error (shape hpx_data) 1 = Some 3%nat) ->
     exists e, extract hpx_data w idx ff frame = Raises e /\ is_ShapeError e = true) /\
  (ff = "png"%string ->
     ~ (ndim hpx_data = 2%nat /\ nth_error (shape hpx_data) 1 = Some 4%nat) ->
     exists e, extract hpx_data w idx ff frame = Raises e /\ is_ShapeError e = true) /\
  (ff <> "fits"%string -> ff <> "jpg"%string -> ff <> "png"%string ->
     exists e, extract hpx_data w idx ff frame = Raises e /\
               is_UnsupportedFormatError e = true).
Proof.
  intros Hw. repeat split.
  - intros -> Hnd. exists (ValueError InvalidNdim). split; [|reflexivity].
    apply extract_gather_raises; [assumption|]. intros ipix.
    unfold gather_pixels. simpl.
    destruct (ndim hpx_data =? 1)%nat eqn:E; [apply Nat.eqb_eq in E; tauto|].
    reflexivity.
  - intros -> Hsh. exists (ValueError InvalidShapeRGB). split; [|reflexivity].
    apply extract_gather_raises; [assumption|]. intros ipix.
    unfold gather_pixels. simpl.
    destruct (ndim hpx_data =? 2)%nat eqn:E; [|reflexivity]. simpl.
    apply Nat.eqb_eq in E. unfold shape_at.
    destruct hpx_data as [v|[|c [|c' sh]] items]; try discriminate E. simpl.
    destruct (Z.of_nat c =? 3) eqn:E3; [|reflexivity].
    apply Z.eqb_eq in E3. exfalso. apply Hsh. split; [assumption|].
    simpl. f_equal. lia.
  - intros -> Hsh. exists (ValueError InvalidShapeRGBA). split; [|reflexivity].
    apply extract_gather_raises; [assumption|]. intros ipix.
    unfold gather_pixels. simpl.
    destruct (ndim hpx_data =? 2)%nat eqn:E; [|reflexivity]. simpl.
    apply Nat.eqb_eq in E. unfold shape_at.
    destruct hpx_data as [v|[|c [|c' sh]] items]; try discriminate E. simpl.
    destruct (Z.of_nat c =? 4) eqn:E4; [|reflexivity].
    apply Z.eqb_eq in E4. exfalso. apply Hsh. split; [assumption|].
    simpl. f_equal. lia.
  - intros H1 H2 H3. exists (ValueError (InvalidFileFormat ff)). split; [|reflexivity].
    apply extract_gather_raises; [assumption|]. intros ipix.
    unfold gather_pixels.
    now rewrite !string_eqb_neq by assumption.
Qed.

End Extractor.

(** The rank-1 sky is refused as a jpg. *)
Lemma extractor_rejects_bad_input_witness :
  exists e, healpix_to_hips_tile Z Examples.ipix_array float64_sqrt_squares_back Examples.sky12 1 0 "jpg" "icrs"
            = Raises e /\ is_ShapeError e = true.
Proof.
  refine (proj1 (proj2 (extractor_rejects_bad_input Z Examples.ipix_array float64_sqrt_squares_back
                          Examples.sky12 1 0 "jpg" "icrs" _)) eq_refl _).
  - lia.
  - simpl. intros [H _]. discriminate H.
Defined.

(** *** The gather stays inside the array *)

Lemma mapM_returns_with {A B} (f : A -> result B) (P : A -> B -> Prop) (l : list A) :
  Forall (fun a => exists b, f a = Returns b /\ P a b) l ->
  exists bs, mapM f l = Returns bs /\ Forall2 P l bs.
Proof.
  induction 1 as [|a l [b [Eb Pb]] _ [bs [Ebs Pbs]]]; simpl.
  - exists []. split; [reflexivity | constructor].
  - rewrite Eb, Ebs. simpl. exists (b :: bs). split; [reflexivity | now constructor].
Qed.

Section Gather.

Variable item : Type.
Variable hips_tile_healpix_ipix_array : Z -> list (list Z).
Variable sqrt_squares_back : Z -> bool.

Local Abbreviation extract := (healpix_to_hips_tile item hips_tile_healpix_ipix_array sqrt_squares_back).
Local Abbreviation abs_ipix := (tile_ipix hips_tile_healpix_ipix_array).

Local Abbreviation gathered := (Healpix.gathered item).

Lemma take_in_range (sh : list nat) (items : list item) (ipix : list (list Z)) :
  Forall (Forall (fun q => 0 <= q < Z.of_nat (List.length items))) ipix ->
  exists g, take (Array sh items) ipix = Returns g /\
            Forall2 (Forall2 (gathered items)) ipix g.
Proof.
  intros H. simpl. apply mapM_returns_with.
  eapply Forall_impl; [|exact H]. intros row Hrow.
  apply mapM_returns_with.
  eapply Forall_impl; [|exact Hrow]. intros q Hq.
  now apply getitem_in_range.
Qed.

Lemma gather_valid_shape (hpx_data : ndarray item) (ff : string) (ipix : list (list Z)) :
  valid_shape item ff hpx_data = true ->
  gather_pixels item hpx_data ff ipix = take hpx_data ipix.
Proof.
  unfold valid_shape, gather_pixels.
  destruct (ff =? "fits")%string.
  { intros ->. reflexivity. }
  destruct (ff =? "jpg")%string.
  { intros H. apply andb_prop in H as [-> H]. simpl.
    destruct hpx_data as [v|[|c sh] items]; simpl in *; try discriminate.
    apply Nat.eqb_eq in H. subst c. reflexivity. }
  destruct (ff =? "png")%string.
  { intros H. apply andb_prop in H as [-> H]. simpl.
    destruct hpx_data as [v|[|c sh] items]; simpl in *; try discriminate.
    apply Nat.eqb_eq in H. subst c. reflexivity. }
  discriminate.
Qed.

Lemma valid_shape_has_axis (hpx_data : ndarray item) (ff : string) :
  valid_shape item ff hpx_data = true ->
  exists sh items, hpx_data = Array sh items.
Proof.
  unfold valid_shape. destruct hpx_data as [v|sh items].
  - simpl. repeat (destruct (_ =? _)%string; [discriminate|]). discriminate.
  - intros _. now exists sh, items.
Qed.

Lemma tile_ipix_in_range (w idx npix : Z) :
  0 < w ->
  Permutation (concat (hips_tile_healpix_ipix_array (Z.log2 w))) (range (w ^ 2)) ->
  0 <= idx < npix / w ^ 2 ->
  Forall (Forall (fun q => 0 <= q < npix)) (abs_ipix w idx).
Proof.
  intros Hw Hperm Hidx. unfold tile_ipix, add_offset.
  apply Forall_map, Forall_forall. intros row Hrow.
  apply Forall_map, Forall_forall. intros p Hp.
  assert (Hin : In p (range (w ^ 2))).
  { eapply Permutation_in; [exact Hperm|]. apply in_concat. eauto. }
  apply in_range_iff in Hin.
  assert (Hsq : 0 < w ^ 2) by nia.
  pose proof (Z.mul_div_le npix (w ^ 2) Hsq).
  nia.
Qed.

(** C9: when the helper gives the offsets 0 .. w^2 - 1, the length is a
    multiple of w^2 and the tile index is below the number of tiles, every
    index the extractor gathers is inside the array, and the gather of an
    input of valid shape returns. *)
Theorem gather_indices_in_bounds (hpx_data : ndarray item) (w idx npix : Z) (ff : string) :
  0 < w ->
  Permutation (concat (hips_tile_healpix_ipix_array (Z.log2 w))) (range (w ^ 2)) ->
  shape_at hpx_data 0 = Returns npix ->
  npix mod w ^ 2 = 0 ->
  0 <= idx < npix / w ^ 2 ->
  Forall (Forall (fun q => 0 <= q < npix)) (abs_ipix w idx) /\
  (valid_shape item ff hpx_data = true ->
   exists data, gather_pixels item hpx_data ff (abs_ipix w idx) = Returns data).
Proof.
  intros Hw Hperm Hn _ Hidx.
  pose proof (tile_ipix_in_range w idx npix Hw Hperm Hidx) as Hin.
  split; [exact Hin|].
  intros Hv. rewrite gather_valid_shape by assumption.
  destruct (valid_shape_has_axis _ _ Hv) as [sh [items ->]].
  simpl in Hn. injection Hn as <-.
  destruct (take_in_range sh items _ Hin) as [g [Eg _]].
  now exists g.
Qed.

End Gather.

(** Tile 11 of the sky of 48 pixels, for tiles of width 2. *)
Lemma gather_indices_in_bounds_witness :
  Forall (Forall (fun q => 0 <= q < 48)) (tile_ipix Examples.ipix_array 2 11) /\
  (valid_shape Z "fits" Examples.sky48 = true ->
   exists data, gather_pixels Z Examples.sky48 "fits"
                  (tile_ipix Examples.ipix_array 2 11) = Returns data).
Proof.
  apply (gather_indices_in_bounds Z Examples.ipix_array Examples.sky48 2 11 48 "fits").
  - lia.
  - simpl. apply perm_skip. apply perm_swap.
  - reflexivity.
  - reflexivity.
  - split; [lia | reflexivity].
Defined.

(** *** The order of the source map *)

Lemma npix2nside_full_sky (sqrt_squares_back : Z -> bool) (m : Z) :
  0 <= m -> npix2nside sqrt_squares_back (12 * m * m) = Returns m.
Proof.
  intros Hm. unfold npix2nside.
  replace (12 * m * m) with (m * m * 12) by ring.
  rewrite Z.mod_mul by lia. cbv zeta. simpl negb. cbv iota.
  rewrite Z.div_mul by lia.
  rewrite Z.sqrt_square by lia.
  now rewrite Z.eqb_refl.
Qed.

Section Order.

Variable item : Type.
Variable hips_tile_healpix_ipix_array : Z -> list (list Z).
Variable sqrt_squares_back : Z -> bool.

Local Abbreviation extract := (healpix_to_hips_tile item hips_tile_healpix_ipix_array sqrt_squares_back).
Local Abbreviation abs_ipix := (tile_ipix hips_tile_healpix_ipix_array).

(** The extractor, for a positive tile width, step by step. *)
Lemma extract_unfold hpx_data w idx ff frame :
  0 < w ->
  extract hpx_data w idx ff frame =
  (data <- gather_pixels item hpx_data ff (abs_ipix w idx) ;;
   hpx_npix <- shape_at hpx_data 0 ;;
   hpx_nside <- npix2nside sqrt_squares_back (hpx_npix / w ^ 2) ;;
   hpx_order <- int_log2 hpx_nside ;;
   Returns (mkTile (mkMeta hpx_order idx ff frame (Some w)) (rot90 data))).
Proof.
  intros Hw. unfold healpix_to_hips_tile, tiles_per_sky, tile_ipix.
  rewrite (int_log2_positive w Hw). simpl.
  destruct (gather_pixels _ _ _ _) as [data|e]; simpl; [|reflexivity].
  destruct (shape_at hpx_data 0) as [n|e]; simpl; [|reflexivity].
  destruct (w ^ 2 =? 0) eqn:E; [apply Z.eqb_eq in E; nia|].
  reflexivity.
Qed.

(** The extractor returns for a sky of [12 * m^2] tiles: the buffer is the
    turned gather and the order is that of [m]. *)
Lemma extract_returns hpx_data w idx ff frame npix m :
  0 < w ->
  Permutation (concat (hips_tile_healpix_ipix_array (Z.log2 w))) (range (w ^ 2)) ->
  valid_shape item ff hpx_data = true ->
  shape_at hpx_data 0 = Returns npix ->
  0 < m ->
  npix / w ^ 2 = 12 * m * m ->
  0 <= idx < npix / w ^ 2 ->
  exists sh items g,
    hpx_data = Array sh items /\
    Forall2 (Forall2 (gathered item items)) (abs_ipix w idx) g /\
    extract hpx_data w idx ff frame =
      Returns (mkTile (mkMeta (Z.log2 m) idx ff frame (Some w)) (rot90 g)).
Proof.
  intros Hw Hperm Hv Hn Hm Hq Hidx.
  destruct (valid_shape_has_axis _ _ _ Hv) as [sh [items ->]].
  pose proof Hn as Hn'. simpl in Hn'. injection Hn' as Hlen.
  pose proof (tile_ipix_in_range hips_tile_healpix_ipix_array w idx npix Hw Hperm Hidx) as Hin.
  rewrite <- Hlen in Hin.
  destruct (take_in_range item sh items _ Hin) as [g [Eg Hg]].
  exists sh, items, g. split; [reflexivity|]. split; [exact Hg|].
  rewrite extract_unfold by assumption.
  rewrite gather_valid_shape by assumption.
  rewrite Eg, Hn. simpl. rewrite Hq.
  rewrite npix2nside_full_sky by lia. simpl.
  rewrite int_log2_positive by assumption. reflexivity.
Qed.

(** C7, as the code has it: for an input of length
    [npix = 12 * 4^k * tile_width^2], a tile width that is a power of two and
    a tile index below the number of tiles, the extractor returns a tile
    whose order is [k], which is [log2(sqrt(npix / (12 * tile_width^2)))]:
    the 12 base tiles of the sky are divided out before the root is taken. *)
Theorem extractor_order hpx_data w s idx ff frame npix k :
  0 <= s -> w = 2 ^ s ->
  0 <= k -> npix = 12 * 4 ^ k * w ^ 2 ->
  Permutation (concat (hips_tile_healpix_ipix_array (Z.log2 w))) (range (w ^ 2)) ->
  valid_shape item ff hpx_data = true ->
  shape_at hpx_data 0 = Returns npix ->
  0 <= idx < npix / w ^ 2 ->
  exists tile,
    extract hpx_data w idx ff frame = Returns tile /\
    order (meta tile) = k /\
    k = Z.log2 (Z.sqrt (npix / (12 * w ^ 2))).
Proof.
  intros Hs Hws Hk Hnpix Hperm Hv Hn Hidx.
  assert (Hw : 0 < w) by (subst w; apply Z.pow_pos_nonneg; lia).
  assert (Hsq : 0 < w ^ 2) by nia.
  assert (H4 : 4 ^ k = 2 ^ k * 2 ^ k).
  { change 4 with (2 * 2). now rewrite Z.pow_mul_l. }
  assert (Hm : 0 < 2 ^ k) by (apply Z.pow_pos_nonneg; lia).
  assert (Hq : npix / w ^ 2 = 12 * 2 ^ k * 2 ^ k).
  { rewrite Hnpix, Z.div_mul by lia. rewrite H4. ring. }
  destruct (extract_returns hpx_data w idx ff frame npix (2 ^ k))
    as [sh [items [g [_ [_ E]]]]]; try assumption.
  eexists. split; [exact E|]. cbn [meta order].
  rewrite Z.log2_pow2 by assumption. split; [reflexivity|].
  replace (npix / (12 * w ^ 2)) with (2 ^ k * 2 ^ k).
  - rewrite Z.sqrt_square by lia. now rewrite Z.log2_pow2.
  - rewrite Hnpix, H4.
    replace (12 * (2 ^ k * 2 ^ k) * w ^ 2) with (2 ^ k * 2 ^ k * (12 * w ^ 2)) by ring.
    rewrite Z.div_mul by lia. reflexivity.
Qed.

End Order.

(** The sky of 48 pixels in tiles of width 1 has order 1. *)
Lemma extractor_order_witness :
  exists tile,
    healpix_to_hips_tile Z Examples.ipix_array float64_sqrt_squares_back Examples.sky48 1 5 "fits" "icrs"
    = Returns tile /\
    order (meta tile) = 1 /\
    1 = Z.log2 (Z.sqrt (48 / (12 * 1 ^ 2))).
Proof.
  apply (extractor_order Z Examples.ipix_array float64_sqrt_squares_back Examples.sky48 1 0 5 "fits" "icrs" 48 1).
  - lia.
  - reflexivity.
  - lia.
  - reflexivity.
  - simpl. apply Permutation_refl.
  - reflexivity.
  - reflexivity.
  - split; [lia | reflexivity].
Defined.

(** C7, as the spec has it, fails: for the sky of 12 pixels and tiles of
    width 1 ([k = 0]) the extractor stores the order 0, and 0 is not
    [log2(sqrt(12 / 1))]: not when root and logarithm are rounded down, and
    not exactly either, since [4^0 * 1^2] is not 12. *)
Lemma extractor_order_counterexample :
  exists tile,
    healpix_to_hips_tile Z Examples.ipix_array float64_sqrt_squares_back Examples.sky12 1 0 "fits" "icrs"
    = Returns tile /\
    order (meta tile) = 0 /\
    order (meta tile) <> spec_order 12 1 /\
    4 ^ order (meta tile) * 1 ^ 2 <> 12.
Proof.
  eexists. split; [reflexivity|]. simpl. repeat split; discriminate.
Qed.

(** *** Turning a buffer and turning it back *)

Section Matrices.

Context {A : Type}.

Lemma column_cell (m : list (list A)) (c j i : nat) :
  Forall (fun row => List.length row = c) m -> (j < c)%nat ->
  nth_error (column j m) i = cell m i j.
Proof.
  intros Hm Hj. revert i. induction Hm as [|row m Hrow _ IH]; intros i.
  - destruct i; reflexivity.
  - unfold column, cell. simpl.
    destruct (nth_error row j) as [x|] eqn:E.
    + destruct i as [|i]; simpl; [now rewrite E | apply IH].
    + apply nth_error_None in E. lia.
Qed.

Lemma column_length (m : list (list A)) (c j : nat) :
  Forall (fun row => List.length row = c) m -> (j < c)%nat ->
  List.length (column j m) = List.length m.
Proof.
  intros Hm Hj. induction Hm as [|row m Hrow _ IH]; [reflexivity|].
  unfold column. simpl.
  destruct (nth_error row j) as [x|] eqn:E.
  - simpl. f_equal. apply IH.
  - apply nth_error_None in E. lia.
Qed.

Lemma ncols_rect (n c : nat) (m : list (list A)) :
  rect (S n) c m -> ncols m = c.
Proof.
  intros [Hl Hm]. destruct m as [|row m]; [discriminate|].
  now inversion Hm.
Qed.

Lemma transpose_rect (n c : nat) (m : list (list A)) :
  rect (S n) c m -> rect c (S n) (transpose m).
Proof.
  intros Hr. pose proof (ncols_rect _ _ _ Hr) as Hc. destruct Hr as [Hl Hm].
  unfold transpose. rewrite Hc. split.
  - now rewrite length_map, length_seq.
  - apply Forall_map, Forall_forall. intros j Hj. apply in_seq in Hj.
    rewrite (column_length m c) by (assumption || lia). exact Hl.
Qed.

Lemma transpose_cell (n c : nat) (m : list (list A)) (i j : nat) :
  rect (S n) c m -> cell (transpose m) j i = cell m i j.
Proof.
  intros Hr. pose proof (ncols_rect _ _ _ Hr) as Hc. destruct Hr as [Hl Hm].
  unfold cell at 1. unfold transpose. rewrite Hc, nth_error_map, nth_error_seq.
  destruct (Nat.ltb_spec j c) as [Hj|Hj]; simpl.
  - now apply column_cell with (c := c).
  - unfold cell. destruct (nth_error m i) as [row|] eqn:E; [|reflexivity].
    symmetry. apply nth_error_None.
    apply nth_error_In in E. rewrite Forall_forall in Hm. rewrite (Hm _ E). lia.
Qed.

Lemma rect_ext (n c : nat) (m m' : list (list A)) :
  rect n c m -> rect n c m' ->
  (forall i j, cell m i j = cell m' i j) -> m = m'.
Proof.
  intros [Hl Hm] [Hl' Hm'] Hcell. apply nth_error_ext. intros i.
  specialize (Hcell i). unfold cell in Hcell.
  destruct (nth_error m i) as [row|] eqn:E; destruct (nth_error m' i) as [row'|] eqn:E'.
  - f_equal. apply nth_error_ext. exact Hcell.
  - apply nth_error_None in E'.
    assert (i < List.length m)%nat by (apply nth_error_Some; congruence). lia.
  - apply nth_error_None in E.
    assert (i < List.length m')%nat by (apply nth_error_Some; congruence). lia.
  - reflexivity.
Qed.

Lemma transpose_involutive (n c : nat) (m : list (list A)) :
  rect (S n) (S c) m -> transpose (transpose m) = m.
Proof.
  intros Hr.
  pose proof (transpose_rect _ _ _ Hr) as Hr'.
  pose proof (transpose_rect _ _ _ Hr') as Hr''.
  apply (rect_ext (S n) (S c)); [assumption | assumption |].
  intros i j.
  rewrite (transpose_cell c (S n)) by assumption.
  now rewrite (transpose_cell n (S c)) by assumption.
Qed.

Lemma flip1_rect (n c : nat) (m : list (list A)) :
  rect n c m -> rect n c (flip1 m).
Proof.
  intros [Hl Hm]. unfold flip1. split.
  - now rewrite length_map.
  - apply Forall_map. eapply Forall_impl; [|exact Hm].
    intros row Hrow. simpl. now rewrite length_rev.
Qed.

Lemma flip1_involutive (m : list (list A)) : flip1 (flip1 m) = m.
Proof.
  unfold flip1. rewrite map_map. rewrite <- (map_id m) at 2.
  apply map_ext. intros row. apply rev_involutive.
Qed.

(** A quarter turn and the turn back give the buffer again. *)
Lemma rot270_rot90 (n c : nat) (m : list (list A)) :
  rect (S n) (S c) m -> rot270 (rot90 m) = m.
Proof.
  intros Hr. unfold rot270, rot90.
  rewrite (transpose_involutive n c) by now apply flip1_rect.
  apply flip1_involutive.
Qed.

End Matrices.

Lemma Forall2_rect {A B} (P : A -> B -> Prop) (n c : nat)
    (m : list (list A)) (m' : list (list B)) :
  Forall2 (Forall2 P) m m' -> rect n c m -> rect n c m'.
Proof.
  intros H [Hl Hm]. split.
  - rewrite <- Hl. symmetry. eapply Forall2_length; eassumption.
  - clear Hl. induction H as [|row row' m m' Hrow _ IH]; [constructor|].
    inversion Hm as [|? ? Hc Hm']; subst. constructor; [|now apply IH].
    symmetry. eapply Forall2_length; eassumption.
Qed.

Lemma Forall2_concat {A B} (P : A -> B -> Prop)
    (m : list (list A)) (m' : list (list B)) :
  Forall2 (Forall2 P) m m' -> Forall2 P (concat m) (concat m').
Proof.
  induction 1 as [|row row' m m' Hrow _ IH]; simpl; [constructor|].
  now apply Forall2_app.
Qed.

(** *** Writing a tile back *)

Section Scatter.

Context {A : Type}.

Lemma update_length (l : list A) (n : nat) (x : A) :
  List.length (update l n x) = List.length l.
Proof.
  revert n. induction l as [|a l IH]; intros [|n]; simpl; auto.
Qed.

Lemma update_same (l : list A) (n : nat) (x : A) :
  (n < List.length l)%nat -> nth_error (update l n x) n = Some x.
Proof.
  revert n. induction l as [|a l IH]; intros [|n] H; simpl in *; try lia.
  - reflexivity.
  - apply IH. lia.
Qed.

Lemma update_other (l : list A) (n k : nat) (x : A) :
  k <> n -> nth_error (update l n x) k = nth_error l k.
Proof.
  revert n k. induction l as [|a l IH]; intros [|n] [|k] H; simpl; auto; try tauto.
Qed.

(** Writing back values that were read from [src] makes the written cells
    agree with [src] and leaves the agreement of the others as it was. *)
Lemma write_back (src : list A) (ps : list Z) (vs : list A) (dst : list A) (k : nat) :
  Forall2 (fun p v => nth_error src (Z.to_nat p) = Some v) ps vs ->
  List.length dst = List.length src ->
  nth_error dst k = nth_error src k \/ In k (map Z.to_nat ps) ->
  nth_error
    (fold_left (fun acc pv => update acc (Z.to_nat (fst pv)) (snd pv))
               (combine ps vs) dst) k
  = nth_error src k.
Proof.
  intros H. revert dst. induction H as [|p v ps vs Hpv _ IH]; intros dst Hlen Hk.
  - simpl in *. tauto.
  - simpl. apply IH.
    + now rewrite update_length.
    + assert (Hp : (Z.to_nat p < List.length dst)%nat).
      { rewrite Hlen. apply nth_error_Some. congruence. }
      destruct (Nat.eq_dec k (Z.to_nat p)) as [->|Hne].
      * left. now rewrite update_same.
      * rewrite update_other by assumption.
        simpl in Hk. destruct Hk as [Hk|[Hk|Hk]]; auto. congruence.
Qed.

End Scatter.

Section RoundTrip.

Variable item : Type.
Variable hips_tile_healpix_ipix_array : Z -> list (list Z).
Variable sqrt_squares_back : Z -> bool.

Local Abbreviation extract := (healpix_to_hips_tile item hips_tile_healpix_ipix_array sqrt_squares_back).
Local Abbreviation abs_ipix := (tile_ipix hips_tile_healpix_ipix_array).

(** Every pixel of the block of a tile is one of the indices gathered. *)
Lemma tile_ipix_covers (w idx k : Z) :
  Permutation (concat (hips_tile_healpix_ipix_array (Z.log2 w))) (range (w ^ 2)) ->
  idx * w ^ 2 <= k < (idx + 1) * w ^ 2 ->
  In k (concat (abs_ipix w idx)).
Proof.
  intros Hperm Hk. unfold tile_ipix, add_offset. rewrite <- concat_map.
  apply in_map_iff. exists (k - idx * w ^ 2). split; [lia|].
  eapply Permutation_in; [apply Permutation_sym; exact Hperm|].
  apply in_range_iff. lia.
Qed.

Lemma tile_ipix_rect (w idx : Z) :
  nested_permutation w (hips_tile_healpix_ipix_array (Z.log2 w)) ->
  rect (Z.to_nat w) (Z.to_nat w) (abs_ipix w idx).
Proof.
  intros [Hl [Hrows _]]. unfold tile_ipix, add_offset. split.
  - now rewrite length_map.
  - apply Forall_map. eapply Forall_impl; [|exact Hrows].
    intros row Hrow. simpl. now rewrite length_map.
Qed.

(** What the extractor returns, when it returns, is the turned gather. *)
Lemma extract_data hpx_data w idx ff frame tile :
  0 < w ->
  extract hpx_data w idx ff frame = Returns tile ->
  exists g, gather_pixels item hpx_data ff (abs_ipix w idx) = Returns g /\
            data tile = rot90 g.
Proof.
  intros Hw. rewrite extract_unfold by assumption.
  destruct (gather_pixels _ _ _ _) as [g|e]; simpl; [|discriminate].
  destruct (shape_at hpx_data 0) as [n|e]; simpl; [|discriminate].
  destruct (npix2nside _) as [nside|e]; simpl; [|discriminate].
  destruct (int_log2 nside) as [o|e]; simpl; [|discriminate].
  intros E. injection E as <-. now exists g.
Qed.

(** C6: for a tile width that is a power of two, an input of valid shape
    whose length is a multiple of the square of the width, and a tile index
    below the number of tiles: the buffer the extractor returns, turned
    back and written through the indices of the tile into any array of the
    length of the input, gives the pixels of the input at the indices
    [idx * w^2 .. (idx + 1) * w^2 - 1]; and the extractor does return when
    the number of tiles is [12 * m^2]. *)
Theorem extractor_round_trip hpx_data w s idx ff frame npix :
  0 <= s -> w = 2 ^ s ->
  nested_permutation w (hips_tile_healpix_ipix_array (Z.log2 w)) ->
  valid_shape item ff hpx_data = true ->
  shape_at hpx_data 0 = Returns npix ->
  npix mod w ^ 2 = 0 ->
  0 <= idx < npix / w ^ 2 ->
  (forall tile dst k,
     extract hpx_data w idx ff frame = Returns tile ->
     List.length dst = Z.to_nat npix ->
     idx * w ^ 2 <= k < (idx + 1) * w ^ 2 ->
     exists x,
       nth_error (scatter item dst (abs_ipix w idx) (rot270 (data tile))) (Z.to_nat k)
       = Some x /\
       nth_error (pixels item hpx_data) (Z.to_nat k) = Some x) /\
  ((exists m, 0 < m /\ npix / w ^ 2 = 12 * m * m) ->
   exists tile, extract hpx_data w idx ff frame = Returns tile).
Proof.
  intros Hs Hws Hnp Hv Hn _ Hidx.
  assert (Hw : 0 < w) by (subst w; apply Z.pow_pos_nonneg; lia).
  pose proof Hnp as [_ [_ Hperm]].
  split.
  - intros tile dst k E Hdst Hk.
    destruct (extract_data _ _ _ _ _ _ Hw E) as [g [Eg Hdata]].
    rewrite gather_valid_shape in Eg by assumption.
    destruct (valid_shape_has_axis _ _ _ Hv) as [sh [items ->]].
    simpl in Hn. injection Hn as Hlen.
    pose proof (tile_ipix_in_range hips_tile_healpix_ipix_array w idx npix Hw Hperm Hidx) as Hin.
    rewrite <- Hlen in Hin.
    destruct (take_in_range item sh items _ Hin) as [g' [Eg' Hg]].
    rewrite Eg in Eg'. injection Eg' as <-.
    pose proof (tile_ipix_rect w idx Hnp) as Hrect.
    pose proof (Forall2_rect _ _ _ _ _ Hg Hrect) as Hrg.
    destruct (Z.to_nat w) as [|n] eqn:En; [lia|].
    rewrite Hdata, (rot270_rot90 n n) by assumption.
    assert (Hsq : 0 < w ^ 2) by nia.
    pose proof (Z.mul_div_le npix (w ^ 2) Hsq).
    assert (Hkn : (Z.to_nat k < List.length items)%nat) by nia.
    destruct (nth_error items (Z.to_nat k)) as [x|] eqn:Ex;
      [|apply nth_error_None in Ex; lia].
    exists x. split; [|exact Ex].
    rewrite <- Ex. unfold scatter. apply write_back.
    + apply Forall2_concat. exact Hg.
    + lia.
    + right. apply in_map. now apply tile_ipix_covers.
  - intros [m [Hm Hq]].
    destruct (extract_returns item hips_tile_healpix_ipix_array sqrt_squares_back
                hpx_data w idx ff frame npix m)
      as [sh [items [g [_ [_ E]]]]]; try assumption.
    eexists. exact E.
Qed.

End RoundTrip.

(** Tile 11 of the sky of 48 pixels in tiles of width 2. *)
Lemma extractor_round_trip_witness :
  (forall tile dst k,
     healpix_to_hips_tile Z Examples.ipix_array float64_sqrt_squares_back Examples.sky48 2 11 "fits" "icrs"
     = Returns tile ->
     List.length dst = Z.to_nat 48 ->
     11 * 2 ^ 2 <= k < (11 + 1) * 2 ^ 2 ->
     exists x,
       nth_error (scatter Z dst (tile_ipix Examples.ipix_array 2 11)
                          (rot270 (data tile))) (Z.to_nat k) = Some x /\
       nth_error (pixels Z Examples.sky48) (Z.to_nat k) = Some x) /\
  ((exists m, 0 < m /\ 48 / 2 ^ 2 = 12 * m * m) ->
   exists tile,
     healpix_to_hips_tile Z Examples.ipix_array float64_sqrt_squares_back Examples.sky48 2 11 "fits" "icrs"
     = Returns tile).
Proof.
  apply (extractor_round_trip Z Examples.ipix_array float64_sqrt_squares_back Examples.sky48 2 1 11
           "fits" "icrs" 48).
  - lia.
  - reflexivity.
  - split; [reflexivity|]. split.
    + repeat constructor.
    + simpl. apply perm_skip. apply perm_swap.
  - reflexivity.
  - reflexivity.
  - reflexivity.
  - split; [lia | reflexivity].
Defined.

(** *** The converter *)


Section Converter.

Variable item : Type.
Variable hips_tile_healpix_ipix_array : Z -> list (list Z).
Variable sqrt_squares_back : Z -> bool.
Variable tile_default_path : HipsTileMeta -> path.

Local Abbreviation extract := (healpix_to_hips_tile item hips_tile_healpix_ipix_array sqrt_squares_back).
Local Abbreviation convert :=
  (healpix_to_hips item hips_tile_healpix_ipix_array sqrt_squares_back tile_default_path).

(** The two events of one written tile. *)
Local Abbreviation tile_events base_path :=
  (fun tile : HipsTile (buffer item) =>
     [Mkdir item (parent (joinpath base_path (tile_default_path (meta tile))));
      WriteTile item (joinpath base_path (tile_default_path (meta tile))) tile]).





End Converter.


(** *** The cells of a tile *)

Lemma Forall2_nth_error_l {A B} (P : A -> B -> Prop) (l : list A) (l' : list B)
    (n : nat) (a : A) :
  Forall2 P l l' -> nth_error l n = Some a ->
  exists b, nth_error l' n = Some b /\ P a b.
Proof.
  intros H. revert n. induction H as [|x y l l' Hxy _ IH]; intros [|n] E;
    simpl in *; try discriminate.
  - injection E as <-. now exists y.
  - now apply IH.
Qed.

Lemma Forall2_cell {A B} (P : A -> B -> Prop) (m : list (list A))
    (m' : list (list B)) (i j : nat) (a : A) :
  Forall2 (Forall2 P) m m' -> cell m i j = Some a ->
  exists b, cell m' i j = Some b /\ P a b.
Proof.
  intros H E. unfold cell in *.
  destruct (nth_error m i) as [row|] eqn:Er; [|discriminate].
  destruct (Forall2_nth_error_l _ _ _ _ _ H Er) as [row' [Er' Hrow]].
  rewrite Er'. now apply (Forall2_nth_error_l _ _ _ _ _ Hrow).
Qed.

Lemma rect_cell {A} (n c : nat) (m : list (list A)) (i j : nat) :
  rect n c m -> (i < n)%nat -> (j < c)%nat -> exists a, cell m i j = Some a.
Proof.
  intros [Hl Hm] Hi Hj. unfold cell.
  destruct (nth_error m i) as [row|] eqn:E.
  - apply nth_error_In in E. rewrite Forall_forall in Hm. specialize (Hm _ E).
    destruct (nth_error row j) as [a|] eqn:Ea; [now exists a|].
    apply nth_error_None in Ea. lia.
  - apply nth_error_None in E. lia.
Qed.

(** The cell [(i, j)] of a buffer turned by a quarter is the cell
    [(j, c - 1 - i)] of the buffer. *)
Lemma rot90_cell {A} (n c : nat) (m : list (list A)) (i j : nat) :
  rect (S n) (S c) m -> (i < S c)%nat ->
  cell (rot90 m) i j = cell m j (c - i).
Proof.
  intros Hr Hi. unfold rot90.
  rewrite (transpose_cell n (S c)) by now apply flip1_rect.
  unfold cell, flip1. rewrite nth_error_map.
  destruct (nth_error m j) as [row|] eqn:E; simpl; [|reflexivity].
  destruct Hr as [_ Hm]. rewrite Forall_forall in Hm.
  pose proof (Hm _ (nth_error_In _ _ E)) as Hrow.
  rewrite nth_error_rev, Hrow.
  destruct (Nat.ltb_spec i (S c)) as [_|Hge]; [|lia].
  f_equal; lia.
Qed.

Lemma rot90_rect {A} (n c : nat) (m : list (list A)) :
  rect (S n) c m -> rect c (S n) (rot90 m).
Proof.
  intros Hr. unfold rot90. now apply transpose_rect, flip1_rect.
Qed.

Section Cells.

Variable item : Type.
Variable hips_tile_healpix_ipix_array : Z -> list (list Z).
Variable sqrt_squares_back : Z -> bool.

Local Abbreviation extract := (healpix_to_hips_tile item hips_tile_healpix_ipix_array sqrt_squares_back).
Local Abbreviation abs_ipix := (tile_ipix hips_tile_healpix_ipix_array).

(** The gather of the extractor, where it returns, is [take]. *)
Lemma gather_returns_take hpx_data ff ipix g :
  gather_pixels item hpx_data ff ipix = Returns g -> take hpx_data ipix = Returns g.
Proof.
  unfold gather_pixels.
  destruct (ff =? "fits")%string.
  { destruct (negb _); [discriminate | auto]. }
  destruct (ff =? "jpg")%string.
  { destruct (negb _); [discriminate|].
    destruct (shape_at hpx_data 1) as [c|e]; simpl; [|discriminate].
    destruct (negb _); [discriminate | auto]. }
  destruct (ff =? "png")%string.
  { destruct (negb _); [discriminate|].
    destruct (shape_at hpx_data 1) as [c|e]; simpl; [|discriminate].
    destruct (negb _); [discriminate | auto]. }
  discriminate.
Qed.

Lemma take_returns hpx_data ipix g :
  take hpx_data ipix = Returns g ->
  Forall2 (Forall2 (fun q x => getitem (pixels item hpx_data) q = Returns x)) ipix g.
Proof.
  destruct hpx_data as [v|sh items]; simpl; [discriminate|].
  intros E. apply mapM_returns_Forall2 in E.
  eapply Forall2_impl; [|exact E]. intros row row' Hrow.
  now apply mapM_returns_Forall2.
Qed.

Lemma tile_ipix_cell (w idx : Z) (i j : nat) :
  cell (abs_ipix w idx) i j
  = option_map (fun p => p + idx * w ^ 2)
               (cell (hips_tile_healpix_ipix_array (Z.log2 w)) i j).
Proof.
  unfold tile_ipix, add_offset, cell. rewrite nth_error_map.
  destruct (nth_error _ i) as [row|]; simpl; [|reflexivity].
  apply nth_error_map.
Qed.

Lemma tile_ipix_rect_of (w idx : Z) (n c : nat) :
  rect n c (hips_tile_healpix_ipix_array (Z.log2 w)) -> rect n c (abs_ipix w idx).
Proof.
  intros [Hl Hrows]. unfold tile_ipix, add_offset. split.
  - now rewrite length_map.
  - apply Forall_map. eapply Forall_impl; [|exact Hrows].
    intros row Hrow. simpl. now rewrite length_map.
Qed.

(** X1: when the helper gives a [w] x [w] array and the extractor returns,
    the buffer of the tile is [w] x [w], and its cell [(i, j)] holds the
    pixel whose index is the helper's cell [(j, w - 1 - i)] plus
    [tile_idx * w^2]. *)
Theorem extractor_cells hpx_data w idx ff frame tile :
  0 < w ->
  rect (Z.to_nat w) (Z.to_nat w) (hips_tile_healpix_ipix_array (Z.log2 w)) ->
  extract hpx_data w idx ff frame = Returns tile ->
  rect (Z.to_nat w) (Z.to_nat w) (data tile) /\
  forall i j, (i < Z.to_nat w)%nat -> (j < Z.to_nat w)%nat ->
    exists p x,
      cell (hips_tile_healpix_ipix_array (Z.log2 w)) j (Z.to_nat w - 1 - i) = Some p /\
      getitem (pixels item hpx_data) (p + idx * w ^ 2) = Returns x /\
      cell (data tile) i j = Some x.
Proof.
  intros Hw Hrect E.
  destruct (extract_data _ _ _ _ _ _ _ _ _ Hw E) as [g [Eg Hdata]].
  apply gather_returns_take, take_returns in Eg.
  pose proof (tile_ipix_rect_of w idx _ _ Hrect) as Hri.
  pose proof (Forall2_rect _ _ _ _ _ Eg Hri) as Hrg.
  destruct (Z.to_nat w) as [|n] eqn:En; [lia|].
  rewrite Hdata. split; [now apply rot90_rect|].
  intros i j Hi Hj.
  destruct (rect_cell _ _ _ j (n - i) Hrect) as [p Hp]; [lia | lia |].
  exists p.
  assert (Hq : cell (abs_ipix w idx) j (n - i) = Some (p + idx * w ^ 2))
    by now rewrite tile_ipix_cell, Hp.
  destruct (Forall2_cell _ _ _ _ _ _ Eg Hq) as [x [Hx Hget]].
  exists x. replace (S n - 1 - i)%nat with (n - i)%nat by lia.
  split; [exact Hp|]. split; [exact Hget|].
  now rewrite (rot90_cell n n) by assumption.
Qed.

End Cells.

(** Tile 11 of the sky of 48 pixels in tiles of width 2. *)
Lemma extractor_cells_witness :
  rect (Z.to_nat 2) (Z.to_nat 2)
       (data (mkTile (mkMeta 0 11 "fits" "icrs" (Some 2)) [[146; 147]; [144; 145]])) /\
  forall i j, (i < Z.to_nat 2)%nat -> (j < Z.to_nat 2)%nat ->
    exists p x,
      cell (Examples.ipix_array (Z.log2 2)) j (Z.to_nat 2 - 1 - i) = Some p /\
      getitem (pixels Z Examples.sky48) (p + 11 * 2 ^ 2) = Returns x /\
      cell (data (mkTile (mkMeta 0 11 "fits" "icrs" (Some 2))
                         [[146; 147]; [144; 145]])) i j = Some x.
Proof.
  apply (extractor_cells Z Examples.ipix_array float64_sqrt_squares_back Examples.sky48 2 11 "fits" "icrs").
  - lia.
  - split; [reflexivity | repeat constructor].
  - reflexivity.
Defined.

(** *** The tile index and the bounds of the input *)

Lemma getitem_raises_IndexError {A} (l : list A) (i : Z) (e : exn) :
  getitem l i = Raises e -> e = IndexError.
Proof.
  unfold getitem. destruct (_ && _).
  - destruct (nth_error _ _); [discriminate|]. now intros [= <-].
  - now intros [= <-].
Qed.

Lemma getitem_beyond {A} (l : list A) (i : Z) :
  Z.of_nat (List.length l) <= i -> getitem l i = Raises IndexError.
Proof.
  intros Hi. unfold getitem.
  destruct (i <? 0) eqn:E; [apply Z.ltb_lt in E; lia|].
  replace (i <? Z.of_nat (List.length l)) with false
    by (symmetry; apply Z.ltb_ge; lia).
  now rewrite andb_false_r.
Qed.

(** A negative index counts from the end. *)
Lemma getitem_wraps {A} (l : list A) (i : Z) :
  - Z.of_nat (List.length l) <= i < 0 ->
  getitem l i = getitem l (i + Z.of_nat (List.length l)).
Proof.
  intros Hi. unfold getitem.
  destruct (i <? 0) eqn:E; [|apply Z.ltb_ge in E; lia].
  destruct (i + Z.of_nat (List.length l) <? 0) eqn:E';
    [apply Z.ltb_lt in E'; lia | reflexivity].
Qed.

(** A loop of which one step fails, and whose steps fail with [err] only,
    fails with [err]. *)
Lemma mapM_raises_only {A B} (f : A -> result B) (l : list A) (a : A) (err : exn) :
  (forall x e, In x l -> f x = Raises e -> e = err) ->
  In a l -> f a = Raises err -> mapM f l = Raises err.
Proof.
  intros Honly Hin Ha.
  destruct (mapM_one_raises f l a err Hin Ha) as [e' [a' [E [Hin' Ha']]]].
  now rewrite E, (Honly a' e' Hin' Ha').
Qed.

Section Bounds.

Variable item : Type.
Variable hips_tile_healpix_ipix_array : Z -> list (list Z).
Variable sqrt_squares_back : Z -> bool.

Local Abbreviation extract := (healpix_to_hips_tile item hips_tile_healpix_ipix_array sqrt_squares_back).
Local Abbreviation abs_ipix := (tile_ipix hips_tile_healpix_ipix_array).

(** X2: for an input of valid shape, a tile index at or above the number of
    tiles [len // w^2] makes the extractor raise [IndexError]. *)
Theorem extractor_index_too_large hpx_data w idx ff frame npix :
  0 < w ->
  Permutation (concat (hips_tile_healpix_ipix_array (Z.log2 w))) (range (w ^ 2)) ->
  valid_shape item ff hpx_data = true ->
  shape_at hpx_data 0 = Returns npix ->
  npix / w ^ 2 <= idx ->
  extract hpx_data w idx ff frame = Raises IndexError.
Proof.
  intros Hw Hperm Hv Hn Hidx.
  rewrite extract_unfold by assumption.
  rewrite gather_valid_shape by assumption.
  destruct (valid_shape_has_axis _ _ _ Hv) as [sh [items ->]].
  simpl in Hn. injection Hn as Hlen.
  assert (Hsq : 0 < w ^ 2) by nia.
  assert (Hlast : In (w ^ 2 - 1 + idx * w ^ 2) (concat (abs_ipix w idx))).
  { unfold tile_ipix, add_offset. rewrite <- concat_map.
    apply in_map_iff. exists (w ^ 2 - 1). split; [reflexivity|].
    eapply Permutation_in; [apply Permutation_sym; exact Hperm|].
    apply in_range_iff. lia. }
  apply in_concat in Hlast. destruct Hlast as [row [Hrow Hq]].
  assert (Hbig : Z.of_nat (List.length items) <= w ^ 2 - 1 + idx * w ^ 2).
  { pose proof (Z.mod_pos_bound npix (w ^ 2) Hsq).
    pose proof (Z.div_mod npix (w ^ 2) ltac:(lia)). nia. }
  assert (Erow : mapM (getitem items) row = Raises IndexError).
  { apply mapM_raises_only with (a := w ^ 2 - 1 + idx * w ^ 2).
    - intros x e _. apply getitem_raises_IndexError.
    - exact Hq.
    - now apply getitem_beyond. }
  assert (E : take (Array sh items) (abs_ipix w idx) = Raises IndexError).
  { simpl. apply mapM_raises_only with (a := row).
    - intros r e _ Hr. apply mapM_raises in Hr. destruct Hr as [q [_ Hq']].
      now apply getitem_raises_IndexError in Hq'.
    - exact Hrow.
    - exact Erow. }
  now rewrite E.
Qed.

(** X3: a negative tile index is not refused.  For an input of exactly [n]
    tiles and [-n <= tile_idx < 0], the extractor gathers the pixels of the
    tile [tile_idx + n]: it returns the buffer and the order of that tile
    under the negative index. *)
Theorem extractor_negative_index_wraps hpx_data w idx ff frame n tile :
  0 < w ->
  Permutation (concat (hips_tile_healpix_ipix_array (Z.log2 w))) (range (w ^ 2)) ->
  shape_at hpx_data 0 = Returns (n * w ^ 2) ->
  - n <= idx < 0 ->
  extract hpx_data w (idx + n) ff frame = Returns tile ->
  extract hpx_data w idx ff frame
  = Returns (mkTile (mkMeta (order (meta tile)) idx ff frame (Some w)) (data tile)).
Proof.
  intros Hw Hperm Hn Hidx.
  rewrite !extract_unfold by assumption.
  assert (Hsq : 0 < w ^ 2) by nia.
  assert (Hg : gather_pixels item hpx_data ff (abs_ipix w idx)
               = gather_pixels item hpx_data ff (abs_ipix w (idx + n))).
  { unfold gather_pixels.
    assert (Ht : take hpx_data (abs_ipix w idx) = take hpx_data (abs_ipix w (idx + n))).
    { destruct hpx_data as [v|sh items]; [reflexivity|].
      change (Returns (Z.of_nat (List.length items)) = Returns (n * w ^ 2)) in Hn.
      injection Hn as Hlen. simpl.
      unfold tile_ipix, add_offset. rewrite !mapM_map.
      apply mapM_ext. intros row Hrow. rewrite !mapM_map.
      apply mapM_ext. intros p Hp.
      assert (Hin : In p (range (w ^ 2))).
      { eapply Permutation_in; [exact Hperm|]. apply in_concat. eauto. }
      apply in_range_iff in Hin.
      rewrite getitem_wraps by nia. f_equal. nia. }
    now rewrite Ht. }
  rewrite Hg.
  destruct (gather_pixels item hpx_data ff (abs_ipix w (idx + n))) as [g|e];
    simpl; [|discriminate].
  destruct (shape_at hpx_data 0) as [npix|e]; simpl; [|discriminate].
  destruct (npix2nside _) as [nside|e]; simpl; [|discriminate].
  destruct (int_log2 nside) as [o|e]; simpl; [|discriminate].
  intros E. injection E as <-. reflexivity.
Qed.

(** X4: two inputs of the same shape that hold the same pixels in the
    block of a tile give the same tile. *)
Theorem extractor_reads_only_its_block sh items items' w idx ff frame :
  0 < w ->
  Permutation (concat (hips_tile_healpix_ipix_array (Z.log2 w))) (range (w ^ 2)) ->
  List.length items = List.length items' ->
  0 <= idx ->
  (forall k, idx * w ^ 2 <= k < (idx + 1) * w ^ 2 ->
             nth_error items (Z.to_nat k) = nth_error items' (Z.to_nat k)) ->
  extract (Array sh items) w idx ff frame = extract (Array sh items') w idx ff frame.
Proof.
  intros Hw Hperm Hlen Hidx Hsame.
  rewrite !extract_unfold by assumption.
  assert (Hsq : 0 < w ^ 2) by nia.
  assert (Ht : take (Array sh items) (abs_ipix w idx)
               = take (Array sh items') (abs_ipix w idx)).
  { simpl. apply mapM_ext. intros row Hrow. apply mapM_ext. intros q Hq.
    assert (Hin : In q (concat (abs_ipix w idx))) by (apply in_concat; eauto).
    unfold tile_ipix, add_offset in Hin. rewrite <- concat_map in Hin.
    apply in_map_iff in Hin. destruct Hin as [p [<- Hp]].
    apply (Permutation_in _ Hperm), in_range_iff in Hp.
    unfold getitem. rewrite <- Hlen.
    destruct (p + idx * w ^ 2 <? 0) eqn:E; [apply Z.ltb_lt in E; nia|].
    now rewrite Hsame by nia. }
  unfold gather_pixels. simpl in *. rewrite Ht, Hlen. reflexivity.
Qed.

Lemma npix2nside_multiple_of_12 (q nside : Z) :
  npix2nside sqrt_squares_back q = Returns nside -> q mod 12 = 0.
Proof.
  unfold npix2nside. destruct (q mod 12 =? 0) eqn:E; simpl; [|discriminate].
  intros _. now apply Z.eqb_eq.
Qed.

(** X5: the extractor returns only when the number of tiles [len // w^2]
    is a multiple of 12 and at least 12; the tile it returns records the
    tile index, the format, the frame and the width it was called with, and
    as its order the logarithm, rounded down, of the positive [nside] that
    [npix2nside] gives for the number of tiles. *)
Theorem extractor_returns_only_for_multiples_of_12 hpx_data w idx ff frame tile :
  0 < w ->
  extract hpx_data w idx ff frame = Returns tile ->
  exists npix nside,
    shape_at hpx_data 0 = Returns npix /\
    (npix / w ^ 2) mod 12 = 0 /\ 12 <= npix / w ^ 2 /\
    npix2nside sqrt_squares_back (npix / w ^ 2) = Returns nside /\ 0 < nside /\
    meta tile = mkMeta (Z.log2 nside) idx ff frame (Some w).
Proof.
  intros Hw. rewrite extract_unfold by assumption.
  destruct (gather_pixels _ _ _ _) as [g|e]; simpl; [|discriminate].
  destruct (shape_at hpx_data 0) as [npix|e] eqn:Hn; simpl; [|discriminate].
  destruct (npix2nside sqrt_squares_back (npix / w ^ 2)) as [nside|e] eqn:En;
    simpl; [|discriminate].
  unfold int_log2.
  destruct (nside =? 0) eqn:E0; simpl; [discriminate|].
  destruct (nside <? 0) eqn:Eneg; simpl; [discriminate|].
  intros E. injection E as <-.
  apply Z.eqb_neq in E0. apply Z.ltb_ge in Eneg.
  assert (Hnpix : 0 <= npix).
  { destruct hpx_data as [v|sh items]; [discriminate|].
    change (Returns (Z.of_nat (List.length items)) = Returns npix) in Hn.
    injection Hn as <-. lia. }
  assert (Hsq : 0 < w ^ 2) by nia.
  pose proof (Z.div_pos npix (w ^ 2) Hnpix Hsq) as Hq.
  pose proof (npix2nside_multiple_of_12 _ _ En) as H12.
  exists npix, nside. split; [reflexivity|]. split; [exact H12|].
  split; [|split; [exact En|split; [lia|reflexivity]]].
  destruct (Z.eq_dec (npix / w ^ 2) 0) as [Hz|Hz].
  - rewrite Hz in En. vm_compute in En. injection En as <-. lia.
  - pose proof (Z.div_mod (npix / w ^ 2) 12 ltac:(lia)) as Hd.
    rewrite H12, Z.add_0_r in Hd.
    assert (0 < npix / w ^ 2 / 12) by lia. lia.
Qed.

End Bounds.

(** Tile index 12 of the sky of 48 pixels in tiles of width 2. *)
Lemma extractor_index_too_large_witness :
  healpix_to_hips_tile Z Examples.ipix_array float64_sqrt_squares_back Examples.sky48 2 12 "fits" "icrs"
  = Raises IndexError.
Proof.
  apply (extractor_index_too_large Z Examples.ipix_array float64_sqrt_squares_back Examples.sky48 2 12
           "fits" "icrs" 48).
  - lia.
  - simpl. apply perm_skip. apply perm_swap.
  - reflexivity.
  - reflexivity.
  - vm_compute. discriminate.
Defined.

(** Tile index -1 of the sky of 48 pixels is tile 11. *)
Lemma extractor_negative_index_wraps_witness :
  healpix_to_hips_tile Z Examples.ipix_array float64_sqrt_squares_back Examples.sky48 2 (-1) "fits" "icrs"
  = Returns (mkTile (mkMeta (order (meta MoreExamples.tile11)) (-1) "fits" "icrs" (Some 2))
                    (data MoreExamples.tile11)).
Proof.
  apply (extractor_negative_index_wraps Z Examples.ipix_array float64_sqrt_squares_back Examples.sky48 2 (-1)
           "fits" "icrs" 12 MoreExamples.tile11).
  - lia.
  - simpl. apply perm_skip. apply perm_swap.
  - reflexivity.
  - lia.
  - reflexivity.
Defined.

(** The two skies with the same last four pixels give the same tile 11. *)
Lemma extractor_reads_only_its_block_witness :
  healpix_to_hips_tile Z Examples.ipix_array float64_sqrt_squares_back (Array [] MoreExamples.pixels48)
                       2 11 "fits" "icrs"
  = healpix_to_hips_tile Z Examples.ipix_array float64_sqrt_squares_back (Array [] MoreExamples.pixels48_tail)
                         2 11 "fits" "icrs".
Proof.
  apply (extractor_reads_only_its_block Z Examples.ipix_array float64_sqrt_squares_back [] MoreExamples.pixels48
           MoreExamples.pixels48_tail 2 11 "fits" "icrs").
  - lia.
  - simpl. apply perm_skip. apply perm_swap.
  - reflexivity.
  - lia.
  - intros k Hk.
    assert (Hcases : k = 44 \/ k = 45 \/ k = 46 \/ k = 47) by lia.
    destruct Hcases as [ -> | [ -> | [ -> | -> ] ] ]; reflexivity.
Defined.

(** Tile 0 of a sky of 528 pixels in tiles of width 2: 132 tiles, which is
    a multiple of 12 and not [12 * m^2]; in IEEE double precision the root
    of 11 squares back to 11, and the tile has order 1. *)
Lemma extractor_returns_only_for_multiples_of_12_witness :
  exists npix nside,
    shape_at MoreExamples.sky528 0 = Returns npix /\
    (npix / 2 ^ 2) mod 12 = 0 /\ 12 <= npix / 2 ^ 2 /\
    npix2nside float64_sqrt_squares_back (npix / 2 ^ 2) = Returns nside /\
    0 < nside /\
    meta MoreExamples.tile0_of_528 = mkMeta (Z.log2 nside) 0 "fits" "icrs" (Some 2).
Proof.
  apply (extractor_returns_only_for_multiples_of_12 Z Examples.ipix_array
           float64_sqrt_squares_back MoreExamples.sky528 2 0 "fits" "icrs"
           MoreExamples.tile0_of_528).
  - lia.
  - vm_compute. reflexivity.
Defined.

(** *** The tiles of a sky *)

Lemma range_succ (n : Z) : 0 <= n -> range (n + 1) = range n ++ [n].
Proof.
  intros Hn. unfold range.
  replace (Z.to_nat (n + 1)) with (S (Z.to_nat n)) by lia.
  rewrite seq_S, map_app. simpl. f_equal. f_equal. lia.
Qed.

Lemma range_app (a b : Z) :
  0 <= a -> 0 <= b -> range (a + b) = range a ++ map (fun p => p + a) (range b).
Proof.
  intros Ha Hb. rewrite <- (Z2Nat.id b Hb).
  induction (Z.to_nat b) as [|k IH].
  - change (Z.of_nat 0) with 0. rewrite Z.add_0_r.
    change (range 0) with (@nil Z). simpl. now rewrite app_nil_r.
  - rewrite Nat2Z.inj_succ, <- Z.add_1_r.
    rewrite Z.add_assoc, range_succ by lia.
    rewrite IH, (range_succ (Z.of_nat k)) by lia.
    rewrite map_app, app_assoc. simpl. do 2 f_equal. lia.
Qed.

Lemma Permutation_flat_map_pointwise {A B} (f g : A -> list B) (l : list A) :
  (forall a, In a l -> Permutation (f a) (g a)) ->
  Permutation (flat_map f l) (flat_map g l).
Proof.
  induction l as [|a l IH]; intros H; simpl; [constructor|].
  apply Permutation_app; [apply H; now left | apply IH; intros; apply H; now right].
Qed.

Lemma blocks_are_range (m n : Z) :
  0 <= m -> 0 <= n ->
  flat_map (fun idx => map (fun p => p + idx * m) (range m)) (range n) = range (n * m).
Proof.
  intros Hm Hn. rewrite <- (Z2Nat.id n Hn).
  induction (Z.to_nat n) as [|k IH].
  - reflexivity.
  - rewrite Nat2Z.inj_succ, <- Z.add_1_r, range_succ by lia.
    rewrite flat_map_app, IH. simpl. rewrite app_nil_r.
    replace ((Z.of_nat k + 1) * m) with (Z.of_nat k * m + m) by ring.
    now rewrite range_app by nia.
Qed.

Section Partition.

Variable hips_tile_healpix_ipix_array : Z -> list (list Z).

Local Abbreviation abs_ipix := (tile_ipix hips_tile_healpix_ipix_array).

(** X6: the indices gathered for the tiles [0 .. n - 1] are the pixel
    indices [0 .. n * w^2 - 1], each once: every pixel of an input of [n]
    tiles is in exactly one tile. *)
Theorem tiles_partition_the_pixels (w n : Z) :
  Permutation (concat (hips_tile_healpix_ipix_array (Z.log2 w))) (range (w ^ 2)) ->
  0 <= n ->
  Permutation (flat_map (fun idx => concat (abs_ipix w idx)) (range n))
              (range (n * w ^ 2)).
Proof.
  intros Hperm Hn.
  rewrite <- (blocks_are_range (w ^ 2) n) by nia.
  apply Permutation_flat_map_pointwise. intros idx _.
  unfold tile_ipix, add_offset. rewrite <- concat_map.
  now apply Permutation_map.
Qed.

End Partition.

(** The 12 tiles of width 2 of a sky of 48 pixels. *)
Lemma tiles_partition_the_pixels_witness :
  Permutation (flat_map (fun idx => concat (tile_ipix Examples.ipix_array 2 idx))
                        (range 12))
              (range (12 * 2 ^ 2)).
Proof.
  apply (tiles_partition_the_pixels Examples.ipix_array 2 12).
  - simpl. apply perm_skip. apply perm_swap.
  - lia.
Defined.

(** *** The converter on inputs it cannot finish *)

Section ConverterEdges.

Variable item : Type.
Variable hips_tile_healpix_ipix_array : Z -> list (list Z).
Variable sqrt_squares_back : Z -> bool.
Variable tile_default_path : HipsTileMeta -> path.

Local Abbreviation extract := (healpix_to_hips_tile item hips_tile_healpix_ipix_array sqrt_squares_back).
Local Abbreviation convert :=
  (healpix_to_hips item hips_tile_healpix_ipix_array sqrt_squares_back tile_default_path).
Local Abbreviation tile_events base_path :=
  (fun tile : HipsTile (buffer item) =>
     [Mkdir item (parent (joinpath base_path (tile_default_path (meta tile))));
      WriteTile item (joinpath base_path (tile_default_path (meta tile))) tile]).

Lemma write_tiles_stops hpx_data w base_path ff frame idxs tiles i rest e :
  Forall2 (fun idx tile => extract hpx_data w idx ff frame = Returns tile) idxs tiles ->
  extract hpx_data w i ff frame = Raises e ->
  write_tiles item hips_tile_healpix_ipix_array sqrt_squares_back tile_default_path
              hpx_data w base_path ff frame (idxs ++ i :: rest)
  = (flat_map (tile_events base_path) tiles, Raises e).
Proof.
  intros H Hi. induction H as [|idx tile idxs tiles E _ IH]; simpl.
  - now rewrite Hi.
  - now rewrite E, IH.
Qed.

Lemma range_split (n i : Z) :
  0 <= i < n -> exists rest, range n = range i ++ i :: rest.
Proof.
  intros Hi. replace n with (i + (n - i)) by ring.
  rewrite range_app by lia. unfold range at 2.
  destruct (Z.to_nat (n - i)) as [|k] eqn:Ek; [lia|].
  simpl. eexists. reflexivity.
Qed.

(** X7: when the extractor raises for the tile [i], after returning for
    the tiles before it, the converter raises the same exception; the base
    directory, the properties and the tiles before [i] are written and stay
    written, and no later tile is. *)
Theorem converter_stops_at_first_failure
    hpx_data w base_path ff frame npix i tiles e :
  0 < w ->
  shape_at hpx_data 0 = Returns npix ->
  0 <= i < npix / w ^ 2 ->
  Forall2 (fun idx tile => extract hpx_data w idx ff frame = Returns tile)
          (range i) tiles ->
  extract hpx_data w i ff frame = Raises e ->
  convert hpx_data w base_path ff frame
  = ([Mkdir item base_path;
      WriteProperties item (joinpath base_path ["properties"%string])
                      (mkProperties ff w frame)]
     ++ flat_map (tile_events base_path) tiles,
     Raises e).
Proof.
  intros Hw Hn Hi Hok Hfail. unfold healpix_to_hips, n_tiles. rewrite Hn. simpl.
  destruct (w ^ 2 =? 0) eqn:E; [apply Z.eqb_eq in E; nia|].
  destruct (range_split (npix / w ^ 2) i Hi) as [rest ->].
  now rewrite (write_tiles_stops _ _ _ _ _ _ _ _ _ _ Hok Hfail).
Qed.

(** X8: for an input shorter than one tile the converter makes the base
    directory, writes the properties and returns; the extractor is not
    called, so neither the format nor the shape of the input is checked. *)
Theorem converter_short_input hpx_data w base_path ff frame npix :
  shape_at hpx_data 0 = Returns npix ->
  npix < w ^ 2 ->
  convert hpx_data w base_path ff frame
  = ([Mkdir item base_path;
      WriteProperties item (joinpath base_path ["properties"%string])
                      (mkProperties ff w frame)],
     Returns tt).
Proof.
  intros Hn Hshort. unfold healpix_to_hips, n_tiles. rewrite Hn. simpl.
  assert (Hnpix : 0 <= npix).
  { destruct hpx_data as [v|sh items]; [discriminate|].
    change (Returns (Z.of_nat (List.length items)) = Returns npix) in Hn.
    injection Hn as <-. lia. }
  destruct (w ^ 2 =? 0) eqn:E; [apply Z.eqb_eq in E; lia|].
  rewrite Z.div_small by lia. reflexivity.
Qed.

End ConverterEdges.

(** A sky of 12 pixels in tiles of width 2: 3 tiles is not [12 * m^2], the
    extractor raises for tile 0, after the properties are written. *)
Lemma converter_stops_at_first_failure_witness :
  healpix_to_hips Z Examples.ipix_array float64_sqrt_squares_back
                  Examples.default_path
                  Examples.sky12 2 ["out"%string] "fits" "icrs"
  = ([Mkdir Z ["out"%string];
      WriteProperties Z (joinpath ["out"%string] ["properties"%string])
                      (mkProperties "fits" 2 "icrs")]
     ++ flat_map
          (fun tile : HipsTile (buffer Z) =>
             [Mkdir Z (parent (joinpath ["out"%string]
                                        (Examples.default_path (meta tile))));
              WriteTile Z (joinpath ["out"%string]
                                    (Examples.default_path (meta tile))) tile])
          [],
     Raises (ValueError InvalidNpix)).
Proof.
  apply (converter_stops_at_first_failure Z Examples.ipix_array float64_sqrt_squares_back Examples.default_path
           Examples.sky12 2 ["out"%string] "fits" "icrs" 12 0 []
           (ValueError InvalidNpix)).
  - lia.
  - reflexivity.
  - split; [lia | reflexivity].
  - constructor.
  - reflexivity.
Defined.

(** A sky of 12 pixels in tiles of width 4, with a format that is none of
    the three. *)
Lemma converter_short_input_witness :
  healpix_to_hips Z Examples.ipix_array float64_sqrt_squares_back
                  Examples.default_path
                  Examples.sky12 4 ["out"%string] "gif" "icrs"
  = ([Mkdir Z ["out"%string];
      WriteProperties Z (joinpath ["out"%string] ["properties"%string])
                      (mkProperties "gif" 4 "icrs")],
     Returns tt).
Proof.
  apply (converter_short_input Z Examples.ipix_array float64_sqrt_squares_back Examples.default_path
           Examples.sky12 4 ["out"%string] "gif" "icrs" 12).
  - reflexivity.
  - reflexivity.
Defined.

End HealpixSpec.

(** ** Format strings *)

Module StrSpec.
Import Str.





Section Format.

Variable render_field : nat -> string -> Z -> result string.

(** A string without braces is its own format. *)
Lemma format_from_plain (s : string) (n : nat) (arg : Z) :
  braces s = 0%nat -> format_from render_field s Text n arg = Returns s.
Proof.
  induction s as [|c s IH]; simpl; [reflexivity|].
  destruct (is_open c); [discriminate|].
  destruct (is_close c); [discriminate|].
  simpl. intros H. now rewrite IH.
Qed.

Hypothesis render_no_brace :
  forall n field arg r, render_field n field arg = Returns r -> braces r = 0%nat.



End Format.

End StrSpec.

(** ** The fetcher *)

Module FetchSpec.
Import Str Fetch.

(** *** Completion order *)

Lemma as_completed_in_order {A} (fs : list A) :
  as_completed fs (seq 0 (List.length fs)) = fs.
Proof.
  unfold as_completed. induction fs as [|f fs IH]; [reflexivity|].
  simpl. f_equal. rewrite <- seq_shift, flat_map_concat_map, map_map.
  rewrite <- flat_map_concat_map. exact IH.
Qed.

Lemma as_completed_permutation {A} (fs : list A) (completion : list nat) :
  Permutation completion (seq 0 (List.length fs)) ->
  Permutation (as_completed fs completion) fs.
Proof.
  intros H. rewrite <- (as_completed_in_order fs) at 2.
  unfold as_completed. now apply Permutation_flat_map.
Qed.

(** Waiting for futures of which one has failed raises the failure of one
    of them. *)
Lemma wait_raises {A} (fs : list (result A)) (completion : list nat) (e : exn) :
  Permutation completion (seq 0 (List.length fs)) ->
  In (Raises e) fs ->
  exists e', mapM future_result (as_completed fs completion) = Raises e' /\
             In (Raises e') fs.
Proof.
  intros Hperm Hin.
  pose proof (as_completed_permutation fs completion Hperm) as Hp.
  assert (Hin' : In (Raises e) (as_completed fs completion)).
  { eapply Permutation_in; [apply Permutation_sym; exact Hp | exact Hin]. }
  destruct (mapM_one_raises future_result _ (Raises e) e Hin' eq_refl)
    as [e' [a' [Em [Ha' Ea']]]].
  exists e'. split; [exact Em|].
  unfold future_result in Ea'. subst a'.
  eapply Permutation_in; [exact Hp | exact Ha'].
Qed.

Lemma tile_urls_length (self : HipsTileFetcher) :
  List.length (tile_urls self) = List.length (tile_indices self).
Proof. unfold tile_urls, tile_metas. now rewrite !length_map. Qed.

(** *** The thread-pool strategy *)

(** The bar does not change what [tiles] returns. *)
Lemma tiles_progress_bar (self : HipsTileFetcher) (srv : server) (completion : list nat) :
  tiles self srv completion
  = tiles (mkFetcher (tile_indices self) (hips_order self) (hips_survey self)
                     (tile_format self) (negb (progress_bar self))
                     (thread_count self))
          srv completion.
Proof.
  unfold tiles, tile_urls, tile_metas, tqdm. simpl.
  now destruct (progress_bar self).
Qed.

Lemma tiles_raises (self : HipsTileFetcher) (srv : server) (completion : list nat)
    (url : string) (e : exn) :
  Permutation completion (seq 0 (List.length (tile_indices self))) ->
  In url (tile_urls self) ->
  fetch_tile_threaded srv url = Raises e ->
  exists e' url',
    In url' (tile_urls self) /\
    fetch_tile_threaded srv url' = Raises e' /\
    tiles self srv completion = Raises e'.
Proof.
  intros Hperm Hin He.
  set (futures := map (fetch_tile_threaded srv) (tile_urls self)).
  assert (Hlen : List.length futures = List.length (tile_indices self)).
  { unfold futures. now rewrite length_map, tile_urls_length. }
  rewrite <- Hlen in Hperm.
  assert (Hf : In (Raises e) futures).
  { unfold futures. rewrite <- He. now apply in_map. }
  destruct (wait_raises futures completion e Hperm Hf) as [e' [Em Hin']].
  unfold futures in Hin'. apply in_map_iff in Hin'. destruct Hin' as [url' [Eu Hu]].
  exists e', url'. split; [exact Hu|]. split; [exact Eu|].
  unfold tiles, tqdm. fold futures.
  destruct (progress_bar self); now rewrite Em.
Qed.

(** *** The cooperative strategy *)

Section Cooperative.

Variable render_field : nat -> string -> Z -> result string.

Lemma task_urls_length (self : HipsTileFetcher) (urls : list string) :
  task_urls render_field self = Returns urls ->
  List.length urls = List.length (tile_indices self).
Proof.
  intros E. apply mapM_length in E. rewrite E. unfold enumerate.
  rewrite <- tile_urls_length. generalize (tile_urls self), 0%nat.
  induction l as [|u l IH]; intros k; simpl; [reflexivity|]. now rewrite IH.
Qed.

Lemma tiles_aiohttp_raises (self : HipsTileFetcher) (srv : server)
    (completion : list nat) (urls : list string) (url : string) (e : exn) :
  Permutation completion (seq 0 (List.length (tile_indices self))) ->
  task_urls render_field self = Returns urls ->
  In url urls ->
  fetch_tile_threaded_aiohttp srv url = Raises e ->
  exists e' url',
    In url' urls /\
    fetch_tile_threaded_aiohttp srv url' = Raises e' /\
    tiles_aiohttp render_field self srv completion = Raises e'.
Proof.
  intros Hperm Hurls Hin He.
  set (tasks := map (fetch_tile_threaded_aiohttp srv) urls).
  assert (Hlen : List.length tasks = List.length (tile_indices self)).
  { unfold tasks. rewrite length_map. now apply task_urls_length. }
  rewrite <- Hlen in Hperm.
  assert (Hf : In (Raises e) tasks).
  { unfold tasks. rewrite <- He. now apply in_map. }
  destruct (wait_raises tasks completion e Hperm Hf) as [e' [Em Hin']].
  unfold tasks in Hin'. apply in_map_iff in Hin'. destruct Hin' as [url' [Eu Hu]].
  exists e', url'. split; [exact Hu|]. split; [exact Eu|].
  unfold tiles_aiohttp, fetch_tiles_aiohttp. rewrite Hurls. simpl. fold tasks.
  unfold gather, tqdm.
  destruct (progress_bar self); now rewrite Em.
Qed.

End Cooperative.

(** *** Failures *)

(** X16: when the fetch of a tile fails, with any failure under the
    thread-pool strategy, with a network error or a timeout under the
    cooperative strategy, the batch call raises the failure of a failed
    fetch and returns no tiles. *)
Theorem batch_raises_when_a_fetch_raises
    (render_field : nat -> string -> Z -> result string)
    (self : HipsTileFetcher) (srv : server) (completion : list nat) :
  Permutation completion (seq 0 (List.length (tile_indices self))) ->
  (forall url,
     In url (tile_urls self) ->
     (forall body, srv url <> Success body) ->
     exists e' url',
       In url' (tile_urls self) /\
       fetch_tile_threaded srv url' = Raises e' /\
       tiles self srv completion = Raises e') /\
  (forall urls url ne,
     task_urls render_field self = Returns urls ->
     In url urls ->
     srv url = NetworkFailure ne ->
     exists e' url',
       In url' urls /\
       fetch_tile_threaded_aiohttp srv url' = Raises e' /\
       tiles_aiohttp render_field self srv completion = Raises e').
Proof.
  intros Hperm. split.
  - intros url Hin Hfail.
    assert (He : exists e, fetch_tile_threaded srv url = Raises e).
    { unfold fetch_tile_threaded. destruct (srv url) as [body|code body|ne] eqn:E.
      - now destruct (Hfail body).
      - eexists; reflexivity.
      - eexists; reflexivity. }
    destruct He as [e He].
    now apply tiles_raises with (url := url) (e := e).
  - intros urls url ne Hurls Hin Hfail.
    apply tiles_aiohttp_raises with (url := url) (e := ClientError ne); try assumption.
    unfold fetch_tile_threaded_aiohttp. now rewrite Hfail.
Qed.

(** The fetch of tile 8 times out and finishes first. *)
Lemma batch_raises_when_a_fetch_raises_witness :
  (forall url,
     In url (tile_urls (Examples.fetcher [7; 8] false)) ->
     (forall body, Examples.server_down url <> Success body) ->
     exists e' url',
       In url' (tile_urls (Examples.fetcher [7; 8] false)) /\
       fetch_tile_threaded Examples.server_down url' = Raises e' /\
       tiles (Examples.fetcher [7; 8] false) Examples.server_down [1; 0]%nat
       = Raises e') /\
  (forall urls url ne,
     task_urls render_index (Examples.fetcher [7; 8] false) = Returns urls ->
     In url urls ->
     Examples.server_down url = NetworkFailure ne ->
     exists e' url',
       In url' urls /\
       fetch_tile_threaded_aiohttp Examples.server_down url' = Raises e' /\
       tiles_aiohttp render_index (Examples.fetcher [7; 8] false)
                     Examples.server_down [1; 0]%nat = Raises e').
Proof.
  apply (batch_raises_when_a_fetch_raises render_index
           (Examples.fetcher [7; 8] false) Examples.server_down [1; 0]%nat).
  simpl. apply perm_swap.
Defined.

(** C4 fails on the code for the cooperative strategy: the server answers
    the request for tile 8 with the status 404.  The thread-pool strategy
    raises the HTTP error; the cooperative strategy raises nothing and
    returns two tiles, of which the second holds the body of the 404
    response. *)
Theorem cooperative_returns_the_body_of_an_error_response :
  In "http://h/Npix8.fits"%string (tile_urls (Examples.fetcher [7; 8] false)) /\
  Examples.server_404 "http://h/Npix8.fits"%string
  = ErrorStatus 404 Examples.payload_404 /\
  tiles (Examples.fetcher [7; 8] false) Examples.server_404 [0; 1]%nat
  = Raises (HTTPError 404) /\
  tiles_aiohttp render_index (Examples.fetcher [7; 8] false)
                Examples.server_404 [0; 1]%nat
  = Returns [mkTile (mkMeta 3 7 "fits" "icrs" None) Examples.payload_A;
             mkTile (mkMeta 3 8 "fits" "icrs" None) Examples.payload_404].
Proof.
  split; [|split; [|split]].
  - vm_compute. auto.
  - reflexivity.
  - vm_compute. reflexivity.
  - vm_compute. reflexivity.
Qed.

(** *** Order *)

(** C1 fails on the code: tile 8 finishes before tile 7, and [tiles]
    returns the meta of tile 7 with the payload of tile 8 and the meta of
    tile 8 with the payload of tile 7. *)
Theorem tiles_pairs_in_completion_order :
  tiles (Examples.fetcher [7; 8] false) Examples.server_AB [1; 0]%nat
  = Returns [mkTile (mkMeta 3 7 "fits" "icrs" None) Examples.payload_B;
             mkTile (mkMeta 3 8 "fits" "icrs" None) Examples.payload_A] /\
  tiles_in_submission_order fetch_tile_threaded
    (Examples.fetcher [7; 8] false) Examples.server_AB
  = Returns [mkTile (mkMeta 3 7 "fits" "icrs" None) Examples.payload_A;
             mkTile (mkMeta 3 8 "fits" "icrs" None) Examples.payload_B].
Proof.
  split; vm_compute; reflexivity.
Qed.

(** C2 fails on the code: with tile 8 finishing before tile 7, the tiles
    of the two strategies are not the same set. *)
Theorem strategies_differ_as_sets :
  exists threaded cooperative,
    tiles (Examples.fetcher [7; 8] false) Examples.server_AB [1; 0]%nat
    = Returns threaded /\
    tiles_aiohttp render_index (Examples.fetcher [7; 8] false)
                  Examples.server_AB [1; 0]%nat
    = Returns cooperative /\
    ~ same_tile_set threaded cooperative.
Proof.
  eexists. eexists. split; [vm_compute; reflexivity|].
  split; [vm_compute; reflexivity|].
  intros H.
  destruct (proj1 (H (mkTile (mkMeta 3 7 "fits" "icrs" None) [Byte.x42])))
    as [E|[E|[]]].
  - left. reflexivity.
  - discriminate E.
  - discriminate E.
Qed.

(** C3 fails on the code: with tile 8 finishing before tile 7, the
    cooperative strategy returns one tile list with the bar and another
    without it. *)
Theorem progress_bar_changes_cooperative_result :
  tiles_aiohttp render_index (Examples.fetcher [7; 8] true)
                Examples.server_AB [1; 0]%nat
  = Returns [mkTile (mkMeta 3 7 "fits" "icrs" None) Examples.payload_B;
             mkTile (mkMeta 3 8 "fits" "icrs" None) Examples.payload_A] /\
  tiles_aiohttp render_index (Examples.fetcher [7; 8] false)
                Examples.server_AB [1; 0]%nat
  = Returns [mkTile (mkMeta 3 7 "fits" "icrs" None) Examples.payload_A;
             mkTile (mkMeta 3 8 "fits" "icrs" None) Examples.payload_B].
Proof.
  split; vm_compute; reflexivity.
Qed.

(** *** The URLs requested *)

Section Urls.

Variable render_field : nat -> string -> Z -> result string.

Lemma format_enumerate_plain (urls : list string) (k : nat) :
  Forall (fun url => braces url = 0%nat) urls ->
  mapM (fun iu => format render_field (snd iu) (Z.of_nat (fst iu)))
       (enumerate_from k urls)
  = Returns urls.
Proof.
  intros H. revert k. induction H as [|url urls Hu _ IH]; intros k; simpl.
  - reflexivity.
  - unfold format at 1. rewrite (StrSpec.format_from_plain render_field url) by assumption.
    simpl. now rewrite IH.
Qed.



End Urls.


(** A URL with a replacement field: the thread-pool strategy requests it
    as it is, the cooperative strategy puts the position of the task in. *)
Example urls_with_a_field :
  submitted_urls (mkFetcher [7; 8] 3 Examples.survey_braces "fits" false 2)
  = ["http://h/{}/tile"; "http://h/{}/tile"]%string /\
  task_urls render_index (mkFetcher [7; 8] 3 Examples.survey_braces "fits" false 2)
  = Returns ["http://h/0/tile"; "http://h/1/tile"]%string.
Proof.
  split; vm_compute; reflexivity.
Qed.

(** *** What the two strategies return when every fetch succeeds *)

Lemma as_completed_map {A B} (f : A -> B) (fs : list A) (completion : list nat) :
  as_completed (map f fs) completion = map f (as_completed fs completion).
Proof.
  unfold as_completed. induction completion as [|k completion IH]; [reflexivity|].
  simpl. rewrite map_app, IH, nth_error_map.
  now destruct (nth_error fs k).
Qed.

Lemma as_completed_In {A} (fs : list A) (completion : list nat) (x : A) :
  In x (as_completed fs completion) -> In x fs.
Proof.
  unfold as_completed. rewrite in_flat_map. intros [k [_ H]].
  destruct (nth_error fs k) as [f|] eqn:E; [|destruct H].
  destruct H as [<-|[]]. eapply nth_error_In. exact E.
Qed.

Lemma mapM_fetch_all {A B} (f : A -> result B) (g : A -> B) (l : list A) :
  (forall a, In a l -> f a = Returns (g a)) -> mapM f l = Returns (map g l).
Proof.
  intros H. rewrite (mapM_ext f (fun a => Returns (g a))) by assumption.
  apply mapM_pure.
Qed.

Lemma make_tiles_from (pre metas : list HipsTileMeta) (raws : list bytes) :
  (List.length raws <= List.length metas)%nat ->
  mapM (fun ir => meta <- getitem (pre ++ metas) (Z.of_nat (fst ir)) ;;
                  Returns (mkTile meta (snd ir)))
       (enumerate_from (List.length pre) raws)
  = Returns (pair_tiles metas raws).
Proof.
  revert pre metas. induction raws as [|raw raws IH]; intros pre metas Hlen.
  - destruct metas; reflexivity.
  - destruct metas as [|m metas]; [simpl in Hlen; lia|].
    simpl. rewrite (getitem_nat (pre ++ m :: metas) (List.length pre) m).
    + simpl.
      replace (pre ++ m :: metas) with ((pre ++ [m]) ++ metas)
        by now rewrite <- app_assoc.
      replace (S (List.length pre)) with (List.length (pre ++ [m]))
        by (rewrite length_app; simpl; lia).
      rewrite IH by (simpl in Hlen; lia). reflexivity.
    + rewrite nth_error_app2 by lia. now rewrite Nat.sub_diag.
Qed.

Lemma make_tiles_pairs (metas : list HipsTileMeta) (raws : list bytes) :
  (List.length raws <= List.length metas)%nat ->
  make_tiles metas raws = Returns (pair_tiles metas raws).
Proof. exact (make_tiles_from [] metas raws). Qed.

Lemma tile_metas_length (self : HipsTileFetcher) :
  List.length (tile_metas self) = List.length (tile_indices self).
Proof. unfold tile_metas. now rewrite length_map. Qed.

(** The thread-pool strategy gives the metas in the order of the indices,
    each with the payload of the fetch that finished at its position. *)
Lemma tiles_when_all_succeed (self : HipsTileFetcher) (srv : server)
    (completion : list nat) (payload : string -> bytes) :
  Permutation completion (seq 0 (List.length (tile_indices self))) ->
  (forall url, In url (tile_urls self) -> srv url = Success (payload url)) ->
  tiles self srv completion
  = Returns (pair_tiles (tile_metas self)
               (map payload (as_completed (tile_urls self) completion))).
Proof.
  intros Hperm Hsrv. unfold tiles, tqdm.
  replace (if progress_bar self
           then as_completed (map (fetch_tile_threaded srv) (tile_urls self)) completion
           else as_completed (map (fetch_tile_threaded srv) (tile_urls self)) completion)
    with (map (fetch_tile_threaded srv) (as_completed (tile_urls self) completion))
    by (rewrite as_completed_map; now destruct (progress_bar self)).
  rewrite mapM_map.
  rewrite (mapM_fetch_all _ payload).
  - simpl. apply make_tiles_pairs.
    rewrite length_map, tile_metas_length.
    rewrite <- tile_urls_length in Hperm |- *.
    apply as_completed_permutation in Hperm.
    now rewrite (Permutation_length Hperm).
  - intros url Hin. apply as_completed_In in Hin.
    unfold future_result, fetch_tile_threaded. now rewrite (Hsrv url Hin).
Qed.

(** Without the bar, and when no URL has a brace, the cooperative strategy
    gives each meta with the payload of its own URL, whatever the order in
    which the fetches finish. *)
Lemma gather_keeps_submission_order
    (render_field : nat -> string -> Z -> result string)
    (self : HipsTileFetcher) (srv : server)
    (completion : list nat) (payload : string -> bytes) :
  progress_bar self = false ->
  Forall (fun url => braces url = 0%nat) (tile_urls self) ->
  (forall url, In url (tile_urls self) -> srv url = Success (payload url)) ->
  tiles_aiohttp render_field self srv completion
  = Returns (pair_tiles (tile_metas self) (map payload (tile_urls self))).
Proof.
  intros Hbar Hplain Hsrv.
  assert (Hfetch : forall url, In url (tile_urls self) ->
            future_result (fetch_tile_threaded_aiohttp srv url) = Returns (payload url)).
  { intros url Hin. unfold future_result, fetch_tile_threaded_aiohttp.
    now rewrite (Hsrv url Hin). }
  unfold tiles_aiohttp, fetch_tiles_aiohttp, task_urls, enumerate.
  rewrite format_enumerate_plain by assumption. simpl.
  rewrite Hbar. unfold gather.
  rewrite as_completed_map, mapM_map.
  rewrite (mapM_fetch_all _ payload)
    by (intros url Hin; apply Hfetch; now apply as_completed_In in Hin).
  simpl. rewrite mapM_map, (mapM_fetch_all _ payload) by assumption.
  simpl. apply make_tiles_pairs.
  rewrite length_map, tile_metas_length, tile_urls_length. lia.
Qed.

(** *** Metas, payloads and the order of completion *)

Lemma pair_tiles_meta (metas : list HipsTileMeta) (raws : list bytes) :
  List.length raws = List.length metas ->
  map meta (pair_tiles metas raws) = metas.
Proof.
  revert raws. induction metas as [|m metas IH]; intros [|raw raws] H;
    simpl in *; try discriminate; [reflexivity|].
  f_equal. apply IH. lia.
Qed.

Lemma pair_tiles_data (metas : list HipsTileMeta) (raws : list bytes) :
  List.length raws = List.length metas ->
  map data (pair_tiles metas raws) = raws.
Proof.
  revert raws. induction metas as [|m metas IH]; intros [|raw raws] H;
    simpl in *; try discriminate; [reflexivity|].
  f_equal. apply IH. lia.
Qed.

(** Fetching tile after tile is fetching all the payloads and pairing
    them with the metas. *)
Lemma submission_order_split (f : HipsTileMeta -> result bytes)
    (metas : list HipsTileMeta) :
  mapM (fun m => raw <- f m ;; Returns (mkTile m raw)) metas
  = (raws <- mapM f metas ;; Returns (pair_tiles metas raws)).
Proof.
  induction metas as [|m metas IH]; simpl; [reflexivity|].
  destruct (f m) as [raw|e]; simpl; [|reflexivity].
  rewrite IH. destruct (mapM f metas) as [raws|e]; reflexivity.
Qed.

Lemma as_completed_nil {A} (completion : list nat) :
  as_completed (@nil A) completion = [].
Proof.
  unfold as_completed. induction completion as [|k c IH]; [reflexivity|].
  simpl. rewrite IH. now destruct k.
Qed.

(** X9: when every fetch succeeds, the thread-pool strategy returns one
    tile for each index, with the metas in the order of the indices, and the
    payloads of the tiles are the payloads of the URLs, each once, in the
    order in which the fetches finished. *)
Theorem tiles_metas_and_payloads (self : HipsTileFetcher) (srv : server)
    (completion : list nat) (payload : string -> bytes) :
  Permutation completion (seq 0 (List.length (tile_indices self))) ->
  (forall url, In url (tile_urls self) -> srv url = Success (payload url)) ->
  exists ts,
    tiles self srv completion = Returns ts /\
    map meta ts = tile_metas self /\
    map data ts = map payload (as_completed (tile_urls self) completion) /\
    Permutation (map data ts) (map payload (tile_urls self)).
Proof.
  intros Hperm Hsrv.
  rewrite (tiles_when_all_succeed self srv completion payload Hperm Hsrv).
  eexists. split; [reflexivity|].
  assert (Hp : Permutation (as_completed (tile_urls self) completion) (tile_urls self)).
  { apply as_completed_permutation. now rewrite tile_urls_length. }
  assert (Hlen : List.length (map payload (as_completed (tile_urls self) completion))
                 = List.length (tile_metas self)).
  { rewrite length_map, (Permutation_length Hp).
    now rewrite tile_urls_length, tile_metas_length. }
  split; [now apply pair_tiles_meta|].
  rewrite pair_tiles_data by assumption.
  split; [reflexivity | now apply Permutation_map].
Qed.

(** The fetch of tile 8 finishes first. *)
Lemma tiles_metas_and_payloads_witness :
  exists ts,
    tiles (Examples.fetcher [7; 8] false) Examples.server_AB [1; 0]%nat = Returns ts /\
    map meta ts = tile_metas (Examples.fetcher [7; 8] false) /\
    map data ts
    = map (fun url => if (url =? "http://h/Npix7.fits")%string
                      then Examples.payload_A else Examples.payload_B)
          (as_completed (tile_urls (Examples.fetcher [7; 8] false)) [1; 0]%nat) /\
    Permutation (map data ts)
      (map (fun url => if (url =? "http://h/Npix7.fits")%string
                       then Examples.payload_A else Examples.payload_B)
           (tile_urls (Examples.fetcher [7; 8] false))).
Proof.
  apply (tiles_metas_and_payloads (Examples.fetcher [7; 8] false) Examples.server_AB
           [1; 0]%nat).
  - simpl. apply perm_swap.
  - intros url _. unfold Examples.server_AB. now destruct (url =? _)%string.
Defined.


(** *** The cooperative strategy against the thread-pool strategy *)

Section Agreement.

Variable render_field : nat -> string -> Z -> result string.

(** X11: without the bar, and for URLs without braces, whenever fetching
    tile after tile returns a list of tiles, the cooperative strategy
    returns that list, whatever the order in which the fetches finish. *)
Theorem cooperative_gather_is_in_submission_order
    (self : HipsTileFetcher) (srv : server) (completion : list nat)
    (ts : list (HipsTile bytes)) :
  progress_bar self = false ->
  Forall (fun url => braces url = 0%nat) (tile_urls self) ->
  tiles_in_submission_order fetch_tile_threaded_aiohttp self srv = Returns ts ->
  tiles_aiohttp render_field self srv completion = Returns ts.
Proof.
  intros Hbar Hplain Hts.
  unfold tiles_in_submission_order in Hts. rewrite submission_order_split in Hts.
  destruct (mapM _ (tile_metas self)) as [raws|e] eqn:E; simpl in Hts; [|discriminate].
  injection Hts as <-.
  assert (Etasks : mapM future_result
                     (map (fetch_tile_threaded_aiohttp srv) (tile_urls self))
                   = Returns raws).
  { unfold tile_urls. rewrite !mapM_map. exact E. }
  unfold tiles_aiohttp, fetch_tiles_aiohttp, task_urls, enumerate.
  rewrite format_enumerate_plain by assumption. simpl.
  rewrite Hbar. unfold gather. rewrite Etasks.
  assert (Hall : exists done,
            mapM future_result
                 (as_completed (map (fetch_tile_threaded_aiohttp srv) (tile_urls self))
                               completion) = Returns done).
  { apply mapM_total. apply Forall_forall. intros t Ht.
    apply as_completed_In in Ht.
    apply mapM_returns_Forall2 in Etasks.
    clear - Etasks Ht. induction Etasks as [|t' raw l raws' Ht' _ IH]; [destruct Ht|].
    destruct Ht as [->|Ht]; [now exists raw | now apply IH]. }
  destruct Hall as [done ->]. simpl.
  apply make_tiles_pairs. apply mapM_length in E. lia.
Qed.

(** X12: with the bar, for URLs without braces and a server that answers
    every URL with success, the two strategies return the same list of
    tiles, whatever the order in which the fetches finish. *)
Theorem strategies_agree_with_the_bar
    (self : HipsTileFetcher) (srv : server) (completion : list nat) :
  progress_bar self = true ->
  Forall (fun url => braces url = 0%nat) (tile_urls self) ->
  (forall url, In url (tile_urls self) -> exists body, srv url = Success body) ->
  tiles_aiohttp render_field self srv completion = tiles self srv completion.
Proof.
  intros Hbar Hplain Hsrv.
  unfold tiles_aiohttp, fetch_tiles_aiohttp, tiles, task_urls, enumerate.
  rewrite format_enumerate_plain by assumption. simpl. rewrite Hbar.
  replace (map (fetch_tile_threaded_aiohttp srv) (tile_urls self))
    with (map (fetch_tile_threaded srv) (tile_urls self)); [reflexivity|].
  apply map_ext_in. intros url Hin. destruct (Hsrv url Hin) as [body Hb].
  unfold fetch_tile_threaded, fetch_tile_threaded_aiohttp. now rewrite Hb.
Qed.

(** X13: for an empty list of indices both strategies return the empty
    list of tiles, whatever the server and the completion order. *)
Theorem empty_batch (self : HipsTileFetcher) (srv : server) (completion : list nat) :
  tile_indices self = [] ->
  tiles self srv completion = Returns [] /\
  tiles_aiohttp render_field self srv completion = Returns [].
Proof.
  intros Hnil.
  assert (Hm : tile_metas self = []) by (unfold tile_metas; now rewrite Hnil).
  assert (Hu : tile_urls self = []) by (unfold tile_urls; now rewrite Hm).
  split.
  - unfold tiles, tqdm. rewrite Hu, Hm. simpl. rewrite as_completed_nil.
    now destruct (progress_bar self).
  - unfold tiles_aiohttp, fetch_tiles_aiohttp, task_urls, gather, tqdm.
    rewrite Hu, Hm. simpl. rewrite as_completed_nil.
    now destruct (progress_bar self).
Qed.

End Agreement.

(** The fetch of tile 8 finishes first, and the tiles are in the order of
    the indices. *)
Lemma cooperative_gather_is_in_submission_order_witness :
  tiles_aiohttp render_index (Examples.fetcher [7; 8] false) Examples.server_AB
                [1; 0]%nat
  = Returns [mkTile (mkMeta 3 7 "fits" "icrs" None) Examples.payload_A;
             mkTile (mkMeta 3 8 "fits" "icrs" None) Examples.payload_B].
Proof.
  apply (cooperative_gather_is_in_submission_order render_index
           (Examples.fetcher [7; 8] false) Examples.server_AB [1; 0]%nat).
  - reflexivity.
  - repeat constructor.
  - reflexivity.
Defined.

Lemma strategies_agree_with_the_bar_witness :
  tiles_aiohttp render_index (Examples.fetcher [7; 8] true) Examples.server_AB
                [1; 0]%nat
  = tiles (Examples.fetcher [7; 8] true) Examples.server_AB [1; 0]%nat.
Proof.
  apply (strategies_agree_with_the_bar render_index
           (Examples.fetcher [7; 8] true) Examples.server_AB [1; 0]%nat).
  - reflexivity.
  - repeat constructor.
  - intros url _. unfold Examples.server_AB.
    destruct (url =? _)%string; eexists; reflexivity.
Defined.

(** No index, a server that is down, and a completion order of futures
    that do not exist. *)
Lemma empty_batch_witness :
  tiles (Examples.fetcher [] false) Examples.server_down [3; 1]%nat = Returns [] /\
  tiles_aiohttp render_index (Examples.fetcher [] false) Examples.server_down
                [3; 1]%nat = Returns [].
Proof.
  apply (empty_batch render_index (Examples.fetcher [] false) Examples.server_down
           [3; 1]%nat).
  reflexivity.
Defined.

(** *** A URL with one brace *)

Section OneBrace.

Variable render_field : nat -> string -> Z -> result string.

Lemma format_in_field_unclosed (s : string) (depth : nat) (field : string)
    (n : nat) (arg : Z) :
  braces s = 0%nat ->
  format_from render_field s (InField depth field) n arg
  = Raises (ValueError BadFormatString).
Proof.
  revert field. induction s as [|c s IH]; intros field; simpl; [reflexivity|].
  destruct (is_open c); [discriminate|].
  destruct (is_close c); [discriminate|].
  simpl. intros H. now apply IH.
Qed.

Lemma format_after_brace (s : string) (st : scan_state) (n : nat) (arg : Z) :
  braces s = 0%nat -> pending st = 1%nat ->
  format_from render_field s st n arg = Raises (ValueError BadFormatString).
Proof.
  intros Hs Hst. destruct st; try discriminate; destruct s as [|c s]; try reflexivity;
    simpl in *.
  - destruct (is_open c); [discriminate|].
    destruct (is_close c); [discriminate|].
    now apply format_in_field_unclosed.
  - destruct (is_open c); [discriminate|].
    now destruct (is_close c).
Qed.

(** A format string with one brace is refused. *)
Lemma format_one_brace (s : string) (n : nat) (arg : Z) :
  braces s = 1%nat ->
  format_from render_field s Text n arg = Raises (ValueError BadFormatString).
Proof.
  induction s as [|c s IH]; simpl; [discriminate|].
  destruct (is_open c) eqn:Eo; simpl.
  { intros H. apply format_after_brace; [lia | reflexivity]. }
  destruct (is_close c) eqn:Ec; simpl.
  { intros H. apply format_after_brace; [lia | reflexivity]. }
  intros H. now rewrite IH.
Qed.

Lemma enumerate_from_In {A} (l : list A) (k : nat) (a : A) :
  In a l -> exists i, In (i, a) (enumerate_from k l).
Proof.
  revert k. induction l as [|x l IH]; intros k; simpl; [tauto|].
  intros [->|H].
  - exists k. now left.
  - destruct (IH (S k) H) as [i Hi]. exists i. now right.
Qed.

(** X14: when the URL of a tile has exactly one brace, the cooperative
    strategy raises for every server and every completion order: the URL
    is not a format string, and no tile is returned. *)
Theorem cooperative_refuses_a_single_brace
    (self : HipsTileFetcher) (srv : server) (completion : list nat) (url : string) :
  In url (tile_urls self) ->
  braces url = 1%nat ->
  exists e, tiles_aiohttp render_field self srv completion = Raises e.
Proof.
  intros Hin Hone.
  destruct (enumerate_from_In (tile_urls self) 0 url Hin) as [i Hi].
  destruct (mapM_one_raises
              (fun iu => format render_field (snd iu) (Z.of_nat (fst iu)))
              (enumerate (tile_urls self)) (i, url) (ValueError BadFormatString) Hi)
    as [e [_ [E _]]].
  { simpl. unfold format. now apply format_one_brace. }
  exists e. unfold tiles_aiohttp, fetch_tiles_aiohttp, task_urls. now rewrite E.
Qed.

End OneBrace.

(** The thread-pool strategy fetches the URL with its brace; the
    cooperative strategy raises. *)
Lemma cooperative_refuses_a_single_brace_witness :
  exists e,
    tiles_aiohttp render_index
                  (mkFetcher [7] 3 MoreExamples.survey_one_brace "fits" false 2)
                  MoreExamples.server_A [0]%nat
    = Raises e.
Proof.
  apply (cooperative_refuses_a_single_brace render_index
           (mkFetcher [7] 3 MoreExamples.survey_one_brace "fits" false 2)
           MoreExamples.server_A [0]%nat "http://h/{tile"%string).
  - left. reflexivity.
  - reflexivity.
Defined.

(** *** Which failure is raised *)






End FetchSpec.
